(** * pi_convergents: rational approximations of pi from convergents of pi^k

    A shallow embedding of [src/pi_convergents.py]:

    - [get_continued_fraction] (the Coefficient Generator), over IEEE 754
      binary64 values, the representation of a Python [float];
    - [get_convergents] (the Convergent Builder), over unbounded integers;
    - [find_pi_approximation_to_d_digits] (the Search Controller).

    Python integers are modelled by [Z].  A Python float is a [spec_float]
    of the Standard Library with precision 53 and maximal exponent 1024, and
    the arithmetic used by the program ([-], [/], comparisons, [math.floor],
    [math.isclose], the conversion of an integer, the true division of two
    integers) is the correctly rounded arithmetic of [SpecFloat].  Python
    exceptions are the [Raised] results of an error monad, dictionaries are
    finite maps from strings.  The power operator [**] on floats and [abs]
    on complex numbers come from the interpreter and the platform's
    mathematical library; the controller takes them as parameters, and the
    [while True] loop takes the number of passes it may make.

    The file has the definitions first, then the properties: the recurrence
    of the builder, the rounding facts of binary64 that put the generated
    coefficients in normal form (every coefficient after the first is at
    least 1), the loop of the controller, and the claims C1 to C10. *)

From Stdlib Require Import ZArith QArith List Bool Lia String.
From Stdlib Require Import Floats.SpecFloat.
From stdpp Require Import gmap strings.

Import ListNotations.
Local Open Scope Z_scope.

(** ** Exceptions and results *)

Inductive exn : Type :=
| OverflowError
| ValueError
| ZeroDivisionError
| IndexError
| TypeError.

Inductive result (A : Type) : Type :=
| Ok (a : A)
| Raised (e : exn).

Arguments Ok {A} a.
Arguments Raised {A} e.

Definition bind {A B : Type} (m : result A) (k : A -> result B) : result B :=
  match m with
  | Ok a => k a
  | Raised e => Raised e
  end.

Notation "'let*' x ':=' m 'in' k" := (bind m (fun x => k))
  (at level 10, x pattern, m at level 100, k at level 200).

(** ** Python floats: IEEE 754 binary64 *)

Module Float64.

Definition prec : Z := 53.
Definition emax : Z := 1024.

Abbreviation float := spec_float.

Definition zero : float := S754_zero false.
Definition one : float := S754_finite false 4503599627370496 (-52).
Definition ten : float := S754_finite false 5629499534213120 (-49).

(** [math.pi], 0x1.921fb54442d18p+1. *)
Definition pi : float := S754_finite false 7074237752028440 (-51).

(** The default [rel_tol] of [math.isclose], the double nearest 1e-09. *)
Definition rel_tol : float := S754_finite false 4835703278458517 (-82).

(** The default [abs_tol] of [math.isclose]. *)
Definition abs_tol : float := zero.

Definition sub : float -> float -> float := SFsub prec emax.
Definition mul : float -> float -> float := SFmul prec emax.
Definition fabs : float -> float := SFabs.
Definition eqb : float -> float -> bool := SFeqb.
Definition ltb : float -> float -> bool := SFltb.
Definition leb : float -> float -> bool := SFleb.

Definition is_inf (x : float) : bool :=
  match x with
  | S754_infinity _ => true
  | _ => false
  end.

(** [x / y] on floats: a zero divisor raises, every other case is the
    IEEE division (an overflow gives an infinity, silently). *)
Definition div (x y : float) : result float :=
  match y with
  | S754_zero _ => Raised ZeroDivisionError
  | _ => Ok (SFdiv prec emax x y)
  end.

(** [int(math.floor(x))]: exact; raises on infinities and NaN. *)
Definition floor (x : float) : result Z :=
  match x with
  | S754_zero _ => Ok 0
  | S754_infinity _ => Raised OverflowError
  | S754_nan => Raised ValueError
  | S754_finite s m e =>
      let sm := cond_Zopp s (Zpos m) in
      Ok (if 0 <=? e then sm * 2 ^ e else sm / 2 ^ (- e))
  end.

(** The conversion of an integer operand of a float operation: rounded to
    nearest, ties to even; an integer too large for a double raises. *)
Definition of_int (n : Z) : result float :=
  match binary_normalize prec emax n 0 false with
  | S754_infinity _ => Raised OverflowError
  | f => Ok f
  end.

(** [a / b] on integers (true division): the correctly rounded quotient. *)
Definition int_true_div (a b : Z) : result float :=
  if b =? 0 then Raised ZeroDivisionError
  else if a =? 0 then Ok (S754_zero (b <? 0))
  else
    let '(mz, ez, lz) :=
      SFdiv_core_binary prec emax (Z.abs a) 0 (Z.abs b) 0 in
    match binary_round_aux prec emax (xorb (a <? 0) (b <? 0)) mz ez lz with
    | S754_infinity _ => Raised OverflowError
    | f => Ok f
    end.

(** [error < tolerance] when the tolerance is an integer: Python compares
    a float with an integer exactly. *)
Definition lt_int (x : float) (n : Z) : bool :=
  match x with
  | S754_nan => false
  | S754_infinity s => s
  | S754_zero _ => 0 <? n
  | S754_finite s m e =>
      let sm := cond_Zopp s (Zpos m) in
      (if 0 <=? e then sm * 2 ^ e else sm / 2 ^ (- e)) <? n
  end.

(** [math.isclose(a, b)] with the default tolerances. *)
Definition isclose (a b : float) : bool :=
  if eqb a b then true
  else if is_inf a || is_inf b then false
  else
    let diff := fabs (sub b a) in
    leb diff (fabs (mul rel_tol b))
    || leb diff (fabs (mul rel_tol a))
    || leb diff abs_tol.

End Float64.

Abbreviation float := spec_float.

(** ** Python numbers and values *)

Inductive number : Type :=
| PyInt (n : Z)
| PyFloat (x : float)
| PyComplex (re im : float).

Inductive pyval : Type :=
| Num (v : number)
| Str (s : string).

(** [float(x)]. *)
Definition to_float (x : number) : result float :=
  match x with
  | PyInt n => Float64.of_int n
  | PyFloat f => Ok f
  | PyComplex _ _ => Raised TypeError
  end.

(** ** The Coefficient Generator *)

(** The loop [for _ in range(max_terms)] of [get_continued_fraction], with
    [n] iterations left, the current [remainder] and the [coefficients]
    appended so far. *)
Fixpoint cf_loop (n : nat) (remainder : float) (coefficients : list Z)
  : result (list Z) :=
  match n with
  | O => Ok coefficients
  | S n' =>
      let* a := Float64.floor remainder in
      let coefficients := coefficients ++ [a] in
      let* fa := Float64.of_int a in
      let fractional_part := Float64.sub remainder fa in
      if Float64.isclose fractional_part Float64.zero then Ok coefficients
      else
        let* remainder := Float64.div Float64.one fractional_part in
        cf_loop n' remainder coefficients
  end.

Definition get_continued_fraction (x : number) (max_terms : Z)
  : result (list Z) :=
  let* remainder := to_float x in
  cf_loop (Z.to_nat max_terms) remainder [].

(** The same loop, instrumented: the boolean tells whether the loop left
    through [break] (the fractional part compared equal to zero) rather than
    by using up [range(max_terms)].  The source returns the list only. *)
Fixpoint cf_loop_traced (n : nat) (remainder : float) (coefficients : list Z)
  : result (list Z * bool) :=
  match n with
  | O => Ok (coefficients, false)
  | S n' =>
      let* a := Float64.floor remainder in
      let coefficients := coefficients ++ [a] in
      let* fa := Float64.of_int a in
      let fractional_part := Float64.sub remainder fa in
      if Float64.isclose fractional_part Float64.zero
      then Ok (coefficients, true)
      else
        let* remainder := Float64.div Float64.one fractional_part in
        cf_loop_traced n' remainder coefficients
  end.

Definition get_continued_fraction_traced (x : number) (max_terms : Z)
  : result (list Z * bool) :=
  let* remainder := to_float x in
  cf_loop_traced (Z.to_nat max_terms) remainder [].

(** ** The Convergent Builder *)

Record RecurrenceState : Type := {
  p_prev2 : Z;
  p_prev1 : Z;
  q_prev2 : Z;
  q_prev1 : Z
}.

Definition seed : RecurrenceState :=
  {| p_prev2 := 0; p_prev1 := 1; q_prev2 := 1; q_prev1 := 0 |}.

(** One iteration of the [for a in cf_coefficients] loop: the yielded pair
    and the state after the update. *)
Definition step (st : RecurrenceState) (a : Z) : (Z * Z) * RecurrenceState :=
  let p := a * p_prev1 st + p_prev2 st in
  let q := a * q_prev1 st + q_prev2 st in
  ((p, q),
   {| p_prev2 := p_prev1 st; p_prev1 := p;
      q_prev2 := q_prev1 st; q_prev1 := q |}).

(** The pairs yielded from state [st] on the remaining coefficients. *)
Fixpoint convergents_from (st : RecurrenceState) (cf_coefficients : list Z)
  : list (Z * Z) :=
  match cf_coefficients with
  | [] => []
  | a :: rest => fst (step st a) :: convergents_from (snd (step st a)) rest
  end.

Definition get_convergents (cf_coefficients : list Z) : list (Z * Z) :=
  convergents_from seed cf_coefficients.

(** [list(get_convergents(cf))]: draining the generator.  Its body is
    integer arithmetic only and has no [raise]. *)
Definition list_get_convergents (cf : list Z) : result (list (Z * Z)) :=
  Ok (get_convergents cf).


(** ** The Search Controller *)

(** [convergents[-1]]. *)
Definition last_item {A : Type} (l : list A) : result A :=
  match last l with
  | Some x => Ok x
  | None => Raised IndexError
  end.

(** The two results of the controller, as Python dictionaries. *)
Definition found_dict (k D p q : Z) (pi_approx : number) (error : float)
  : gmap string pyval :=
  <["power_k" := Num (PyInt k)]>
  (<["digits_D" := Num (PyInt D)]>
  (<["convergent_p" := Num (PyInt p)]>
  (<["convergent_q" := Num (PyInt q)]>
  (<["pi_approximation" := Num pi_approx]>
  (<["error" := Num (PyFloat error)]> ∅))))).

Definition not_found_dict : gmap string pyval :=
  <["error" := Str "Could not find a suitable approximation."]> ∅.

(** What one pass of the [while True] body finds at a term bound: the
    degenerate denominator, or the last convergent with its approximation,
    its error and the result of [error < tolerance]. *)
Inductive attempt : Type :=
| Degenerate
| Checked (p q : Z) (pi_approx : number) (error : float) (accurate : bool).

Section Controller.

(** [x ** y] on two floats: a float, a complex number (negative base,
    fractional exponent) or an exception. *)
Variable float_pow : float -> float -> result number.

(** [abs(z)] on the complex number [re + im j]. *)
Variable complex_abs : float -> float -> result float.

(** [b ** e] on integers: an integer for [e >= 0], else the float power
    of the two converted operands. *)
Definition int_pow (b e : Z) : result number :=
  if 0 <=? e then Ok (PyInt (b ^ e))
  else
    let* fb := Float64.of_int b in
    let* fe := Float64.of_int e in
    float_pow fb fe.

(** [abs(z - y)] for a float [y]. *)
Definition abs_diff (z : number) (y : float) : result float :=
  match z with
  | PyInt n =>
      let* fn := Float64.of_int n in
      Ok (Float64.fabs (Float64.sub fn y))
  | PyFloat x => Ok (Float64.fabs (Float64.sub x y))
  | PyComplex re im =>
      complex_abs (Float64.sub re y) (Float64.sub im Float64.zero)
  end.

(** [error < tolerance]. *)
Definition lt_number (error : float) (tolerance : number) : result bool :=
  match tolerance with
  | PyInt n => Ok (Float64.lt_int error n)
  | PyFloat t => Ok (Float64.ltb error t)
  | PyComplex _ _ => Raised TypeError
  end.

(** The body of the loop up to the test [error < tolerance]. *)
Definition check_bound (k : Z) (tolerance target_value : number)
  (num_terms : Z) : result attempt :=
  let* cf := get_continued_fraction target_value num_terms in
  let* convergents := list_get_convergents cf in
  let* pq := last_item convergents in
  let '(p, q) := pq in
  if q =? 0 then Ok Degenerate
  else
    let* ratio := Float64.int_true_div p q in
    let* exponent := Float64.int_true_div 1 k in
    let* pi_approx := float_pow ratio exponent in
    let* error := abs_diff pi_approx Float64.pi in
    let* accurate := lt_number error tolerance in
    Ok (Checked p q pi_approx error accurate).

(** The [while True] loop, with [fuel] bounding the number of passes;
    [None] when the fuel runs out. *)
Fixpoint search (k D : Z) (tolerance target_value : number)
  (fuel : nat) (num_terms : Z) : option (result (gmap string pyval)) :=
  match fuel with
  | O => None
  | S fuel' =>
      match check_bound k tolerance target_value num_terms with
      | Raised e => Some (Raised e)
      | Ok Degenerate =>
          search k D tolerance target_value fuel' (num_terms + 1)
      | Ok (Checked p q pi_approx error true) =>
          Some (Ok (found_dict k D p q pi_approx error))
      | Ok (Checked _ _ _ _ false) =>
          let num_terms := num_terms + 1 in
          if 50 <? num_terms then Some (Ok not_found_dict)
          else search k D tolerance target_value fuel' num_terms
      end
  end.

Definition find_pi_approximation_to_d_digits (fuel : nat) (k D : Z)
  : option (result (gmap string pyval)) :=
  match int_pow 10 (- D) with
  | Raised e => Some (Raised e)
  | Ok tolerance =>
      match bind (Float64.of_int k) (float_pow Float64.pi) with
      | Raised e => Some (Raised e)
      | Ok target_value => search k D tolerance target_value fuel 2
      end
  end.

End Controller.

(** ** A reference runtime on integral exponents *)

(** [x ** y] for a finite [x] and an integral [y]: the exact power is a
    dyadic rational (or its inverse) and is rounded once; an overflow raises
    [OverflowError] and a zero base with a negative exponent raises
    [ZeroDivisionError], as [float.__pow__] does.  Other arguments need the
    transcendental code of the mathematical library and are answered by NaN
    here. *)
Definition pow_integral (x y : float) : result number :=
  match Float64.floor y with
  | Raised _ => Ok (PyFloat S754_nan)
  | Ok n =>
      if negb (Float64.eqb (Float64.sub y
                 (binary_normalize Float64.prec Float64.emax n 0 false))
                 Float64.zero)
      then Ok (PyFloat S754_nan)
      else if n =? 0 then Ok (PyFloat Float64.one)
      else
        match x with
        | S754_finite s m e =>
            let sn := s && Z.odd n in
            let mn := Zpos m ^ Z.abs n in
            let en := e * Z.abs n in
            let r :=
              if 0 <? n
              then binary_normalize Float64.prec Float64.emax mn en false
              else
                let '(mz, ez, lz) :=
                  SFdiv_core_binary Float64.prec Float64.emax 1 0 mn en in
                binary_round_aux Float64.prec Float64.emax false mz ez lz in
            match r with
            | S754_infinity _ => Raised OverflowError
            | S754_finite _ mr er => Ok (PyFloat (S754_finite sn mr er))
            | S754_zero _ => Ok (PyFloat (S754_zero sn))
            | S754_nan => Ok (PyFloat S754_nan)
            end
        | S754_zero s =>
            if 0 <? n then Ok (PyFloat (S754_zero (s && Z.odd n)))
            else Raised ZeroDivisionError
        | _ => Ok (PyFloat S754_nan)
        end
  end.

(** [abs] of a complex number with a zero imaginary part; others need
    [hypot] and are answered by NaN here. *)
Definition complex_abs_real (re im : float) : result float :=
  match im with
  | S754_zero _ => Ok (Float64.fabs re)
  | _ => Ok S754_nan
  end.

(** ** Vocabulary of the statements *)

(** Continued-fraction normal form: every coefficient after the first is at
    least 1. *)
Definition normal_form (cf : list Z) : Prop :=
  Forall (fun a => 1 <= a) (tl cf).

(** The numerators and denominators known after the coefficients [cf],
    starting from the two seeded ones: position [n] holds the value of
    index [n - 2]. *)
Definition numerators_from (st : RecurrenceState) (cf : list Z) : list Z :=
  p_prev2 st :: p_prev1 st :: map fst (convergents_from st cf).

Definition denominators_from (st : RecurrenceState) (cf : list Z) : list Z :=
  q_prev2 st :: q_prev1 st :: map snd (convergents_from st cf).

Definition numerators (cf : list Z) : list Z := numerators_from seed cf.
Definition denominators (cf : list Z) : list Z := denominators_from seed cf.

(** The cross product of the two previous pairs, kept up to sign. *)
Definition det (st : RecurrenceState) : Z :=
  p_prev1 st * q_prev2 st - p_prev2 st * q_prev1 st.

(** A float whose mantissa fits in 53 bits, as every binary64 value does. *)
Definition mantissa53 (x : float) : Prop :=
  match x with
  | S754_finite _ m _ => Zpos m < 2 ^ 53
  | _ => True
  end.

(** The floats that the runtime's power operator returns are binary64
    values. *)
Definition returns_binary64 (float_pow : float -> float -> result number)
  : Prop :=
  forall x y r, float_pow x y = Ok (PyFloat r) -> mantissa53 r.

(** A float without a fractional part. *)
Definition integral (x : float) : Prop :=
  match x with
  | S754_zero _ => True
  | S754_finite _ m e => 0 <= e \/ Zpos m mod 2 ^ (- e) = 0
  | _ => False
  end.

(** A number that is not a float with an oversized mantissa. *)
Definition binary64_number (x : number) : Prop :=
  match x with
  | PyFloat f => mantissa53 f
  | _ => True
  end.

(** A result of the controller that carries a convergent. *)
Definition is_found (d : gmap string pyval) : Prop :=
  is_Some (d !! "convergent_p").

(** The canonical exponent of binary64 and the two steps of its rounding:
    the shift applied by [shr_fexp] and the truncated mantissa and exponent
    it leaves. *)
Local Abbreviation fexp64 := (fexp Float64.prec Float64.emax).

Definition shift64 (m e : Z) : Z := fexp64 (Zdigits2 m + e) - e.

Definition truncate64 (m e : Z) : Z * Z :=
  if 0 <? shift64 m e then (m / 2 ^ shift64 m e, e + shift64 m e)
  else (m, e).

(** The bits shifted out so far were not all zero. *)
Definition inexact (r : shr_record) : bool := shr_r r || shr_s r.

(** [m * 2^e] is at least 1, at most 1, the integer [M]. *)
Definition ge_one (m e : Z) : Prop := 0 < m /\ 2 ^ (- e) <= m.
Definition le_one (m e : Z) : Prop := e <= 0 /\ m <= 2 ^ (- e).
Definition value_is (m e M : Z) : Prop :=
  if 0 <=? e then m * 2 ^ e = M else m = M * 2 ^ (- e).

(** A remainder that is at least 1, or an overflowed reciprocal. *)
Definition at_least_one (x : float) : Prop :=
  match x with
  | S754_infinity _ => True
  | S754_finite false m e => ge_one (Zpos m) e
  | _ => False
  end.

(** A fractional part in the interval from 0 to 1. *)
Definition unit_fraction (x : float) : Prop :=
  match x with
  | S754_zero _ => True
  | S754_finite false m e => Zpos m < 2 ^ 53 /\ le_one (Zpos m) e
  | _ => False
  end.

(** A float that is a zero or a finite value. *)
Definition is_finite (x : float) : Prop :=
  match x with
  | S754_zero _ | S754_finite _ _ _ => True
  | _ => False
  end.

(** The finite continued fraction [a0 + 1/(a1 + 1/(a2 + ...))] of the
    module's introduction, evaluated from its innermost term: as a pair of
    a numerator and a denominator, and as a rational number. *)
Fixpoint cf_fraction (cf : list Z) : Z * Z :=
  match cf with
  | [] => (1, 0)
  | a :: rest =>
      let '(n, d) := cf_fraction rest in (a * n + d, n)
  end.

Fixpoint cf_value (cf : list Z) : Q :=
  match cf with
  | [] => 0%Q
  | [a] => inject_Z a
  | a :: rest => (inject_Z a + / cf_value rest)%Q
  end.

(** ** The demonstration of the script *)

(** [K_DEMO]. *)
Definition K_DEMO : Z := 6.

Section Script.

Variable float_pow : float -> float -> result number.
Variable complex_abs : float -> float -> result float.

(** The loop [for p, q in get_convergents(cf_pi6)] of the script: a pair
    with [q == 0] is skipped, every other pair gives one printed row, made
    of [p], [q], the approximation [(p / q) ** (1 / K_DEMO)] and its
    error.  The rows are the values handed to [print]; their layout as text
    is not modelled. *)
Fixpoint demo_rows (convergents : list (Z * Z))
  : result (list (Z * Z * number * float)) :=
  match convergents with
  | [] => Ok []
  | (p, q) :: rest =>
      if q =? 0 then demo_rows rest
      else
        let* ratio := Float64.int_true_div p q in
        let* exponent := Float64.int_true_div 1 K_DEMO in
        let* pi_approx := float_pow ratio exponent in
        let* error := abs_diff complex_abs pi_approx Float64.pi in
        let* rows := demo_rows rest in
        Ok ((p, q, pi_approx, error) :: rows)
  end.

(** The first part of the script: the coefficients of [math.pi ** K_DEMO]
    with [max_terms=10], and the rows of the table. *)
Definition demo_table
  : result (list Z * list (Z * Z * number * float)) :=
  let* pi_to_k := bind (Float64.of_int K_DEMO) (float_pow Float64.pi) in
  let* cf_pi6 := get_continued_fraction pi_to_k 10 in
  let* rows := demo_rows (get_convergents cf_pi6) in
  Ok (cf_pi6, rows).

End Script.

(** * Properties of the Convergent Builder *)

Section Builder.

Implicit Types (st : RecurrenceState) (cf : list Z) (a p q : Z).

Lemma convergents_from_length st cf :
  length (convergents_from st cf) = length cf.
Proof.
  revert st; induction cf as [|a rest IH]; intros st; simpl.
  - reflexivity.
  - now rewrite IH.
Qed.

Lemma numerators_from_cons st a rest :
  numerators_from st (a :: rest)
  = p_prev2 st :: numerators_from (snd (step st a)) rest.
Proof. reflexivity. Qed.

Lemma denominators_from_cons st a rest :
  denominators_from st (a :: rest)
  = q_prev2 st :: denominators_from (snd (step st a)) rest.
Proof. reflexivity. Qed.

(** The pair yielded for the coefficient at position [n] is computed from
    that coefficient and the two previous numerators and denominators. *)
Lemma convergents_from_recurrence st cf (n : nat) a :
  cf !! n = Some a ->
  exists p2 p1 q2 q1,
    numerators_from st cf !! n = Some p2 /\
    numerators_from st cf !! S n = Some p1 /\
    denominators_from st cf !! n = Some q2 /\
    denominators_from st cf !! S n = Some q1 /\
    convergents_from st cf !! n = Some (a * p1 + p2, a * q1 + q2).
Proof.
  revert st n; induction cf as [|a0 rest IH]; intros st n Hn.
  - discriminate.
  - destruct n as [|n].
    + injection Hn as ->.
      exists (p_prev2 st), (p_prev1 st), (q_prev2 st), (q_prev1 st).
      repeat split; reflexivity.
    + simpl in Hn. destruct (IH (snd (step st a0)) n Hn)
        as (p2 & p1 & q2 & q1 & H1 & H2 & H3 & H4 & H5).
      exists p2, p1, q2, q1.
      rewrite numerators_from_cons, denominators_from_cons.
      repeat split; assumption.
Qed.

Lemma det_step st a : det (snd (step st a)) = - det st.
Proof. unfold det; simpl; ring. Qed.

Lemma convergents_from_det st cf (i : nat) p q p' q' :
  convergents_from st cf !! i = Some (p, q) ->
  convergents_from st cf !! S i = Some (p', q') ->
  p' * q - p * q' = det st \/ p' * q - p * q' = - det st.
Proof.
  revert st i; induction cf as [|a rest IH]; intros st i Hi Hi'.
  - discriminate.
  - destruct i as [|i].
    + destruct rest as [|b rest]; [discriminate|].
      simpl in Hi, Hi'. injection Hi as <- <-. injection Hi' as <- <-.
      left. unfold det. ring.
    + change (convergents_from (snd (step st a)) rest !! i = Some (p, q))
        in Hi.
      change (convergents_from (snd (step st a)) rest !! S i = Some (p', q'))
        in Hi'.
      destruct (IH (snd (step st a)) i Hi Hi') as [H|H];
        rewrite H, det_step; lia.
Qed.

(** Denominators stay positive once one is, on coefficients that are
    at least 1. *)
Lemma convergents_from_positive st cf :
  0 <= q_prev2 st -> 1 <= q_prev1 st ->
  Forall (fun a => 1 <= a) cf ->
  Forall (fun pq => 1 <= snd pq) (convergents_from st cf).
Proof.
  revert st; induction cf as [|a rest IH]; intros st H2 H1 Hcf; simpl.
  - constructor.
  - inversion Hcf as [|? ? Ha Hrest]; subst.
    constructor.
    + simpl. nia.
    + apply IH; simpl; [lia | nia | assumption].
Qed.

Lemma get_convergents_positive cf :
  normal_form cf ->
  Forall (fun pq => 1 <= snd pq) (get_convergents cf).
Proof.
  unfold normal_form, get_convergents.
  destruct cf as [|a0 rest]; simpl; intros Hcf.
  - constructor.
  - constructor; [simpl; lia|].
    apply convergents_from_positive; simpl; [lia | lia | assumption].
Qed.

Lemma denominators_lookup cf (n : nat) q :
  denominators cf !! S (S n) = Some q ->
  exists p, get_convergents cf !! n = Some (p, q).
Proof.
  unfold denominators, denominators_from, get_convergents. simpl.
  rewrite list_lookup_fmap.
  destruct (convergents_from seed cf !! n) as [[p q0]|]; simpl;
    [|discriminate].
  intros [= <-]. now exists p.
Qed.

End Builder.

(** * Rounding in binary64

    The facts on [SpecFloat]'s rounding that the generator relies on: a
    rounded value keeps at most 53 mantissa bits, rounding never crosses 1,
    and the conversion of the floor of a float is exact. *)

Section Rounding64.

Lemma fexp64_eq z : fexp64 z = Z.max (z - 53) (-1074).
Proof. reflexivity. Qed.

Lemma digits2_pos_spec (p : positive) :
  2 ^ (Zpos (digits2_pos p) - 1) <= Zpos p < 2 ^ Zpos (digits2_pos p).
Proof.
  induction p as [p IH|p IH|]; simpl digits2_pos.
  - rewrite Pos2Z.inj_succ.
    replace (Z.succ (Zpos (digits2_pos p)) - 1)
      with (Z.succ (Zpos (digits2_pos p) - 1)) by lia.
    rewrite !Z.pow_succ_r by lia. lia.
  - rewrite Pos2Z.inj_succ.
    replace (Z.succ (Zpos (digits2_pos p)) - 1)
      with (Z.succ (Zpos (digits2_pos p) - 1)) by lia.
    rewrite !Z.pow_succ_r by lia. lia.
  - simpl. lia.
Qed.

Lemma Zdigits2_spec (m : Z) :
  0 < m -> 2 ^ (Zdigits2 m - 1) <= m < 2 ^ Zdigits2 m.
Proof.
  destruct m as [|p|p]; try lia. intros _. apply digits2_pos_spec.
Qed.

Lemma Zdigits2_pos (m : Z) : 0 < m -> 0 < Zdigits2 m.
Proof. destruct m; simpl; lia. Qed.

(** [d] binary digits: the only [d] with [2^(d-1) <= m < 2^d]. *)
Lemma Zdigits2_unique (m d : Z) :
  0 < m -> 2 ^ (d - 1) <= m < 2 ^ d -> Zdigits2 m = d.
Proof.
  intros Hm [Hlo Hhi].
  pose proof (Zdigits2_spec m Hm) as [Hlo' Hhi'].
  pose proof (Zdigits2_pos m Hm) as Hd'.
  assert (Hd : 0 < d).
  { destruct (Z_lt_le_dec 0 d) as [|Hle]; [assumption|].
    exfalso. assert (2 ^ d <= 1); [|lia].
    destruct (Z.eq_dec d 0) as [->|]; [simpl; lia|].
    rewrite Z.pow_neg_r by lia. lia. }
  destruct (Z_lt_le_dec (Zdigits2 m) d) as [Hlt|Hge].
  - assert (2 ^ Zdigits2 m <= 2 ^ (d - 1))
      by (apply Z.pow_le_mono_r; lia). lia.
  - destruct (Z_lt_le_dec d (Zdigits2 m)) as [Hlt|Hge']; [|lia].
    assert (2 ^ d <= 2 ^ (Zdigits2 m - 1))
      by (apply Z.pow_le_mono_r; lia). lia.
Qed.

Lemma shr_1_m (r : shr_record) :
  0 <= shr_m r -> shr_m (shr_1 r) = shr_m r / 2.
Proof.
  destruct r as [m rb sb]. simpl. intros Hm.
  destruct m as [|[p|p|]|p]; simpl; try reflexivity; try lia.
  - apply Z.div_unique with (r := 1); lia.
  - apply Z.div_unique with (r := 0); lia.
Qed.

Lemma shr_1_inexact (r : shr_record) :
  0 <= shr_m r -> inexact (shr_1 r) = Z.odd (shr_m r) || inexact r.
Proof.
  destruct r as [m rb sb]. unfold inexact. simpl. intros Hm.
  destruct m as [|[p|p|]|p]; simpl; try lia;
    destruct rb, sb; reflexivity.
Qed.

Lemma loc_of_shr_record_exact (r : shr_record) :
  inexact r = false -> loc_of_shr_record r = loc_Exact.
Proof. destruct r as [m [|] [|]]; unfold inexact; simpl; congruence. Qed.

Lemma shr_iter (p : positive) (r : shr_record) :
  0 <= shr_m r ->
  shr_m (SpecFloat.iter_pos shr_1 p r) = shr_m r / 2 ^ Zpos p /\
  (inexact r = false -> shr_m r mod 2 ^ Zpos p = 0 ->
   inexact (SpecFloat.iter_pos shr_1 p r) = false).
Proof.
  revert r; induction p as [p IH|p IH|]; intros r Hm.
  - simpl SpecFloat.iter_pos.
    assert (H1 : 0 <= shr_m (shr_1 r))
      by (rewrite shr_1_m by assumption; apply Z.div_pos; lia).
    destruct (IH (shr_1 r) H1) as [Hm1 Hx1].
    assert (H2 : 0 <= shr_m (SpecFloat.iter_pos shr_1 p (shr_1 r)))
      by (rewrite Hm1; apply Z.div_pos; [assumption|lia]).
    destruct (IH _ H2) as [Hm2 Hx2].
    assert (Hpow : 2 ^ Zpos p~1 = 2 * (2 ^ Zpos p * 2 ^ Zpos p)).
    { rewrite Pos2Z.inj_xI, <- Z.pow_add_r, <- Z.pow_succ_r by lia.
      f_equal; lia. }
    assert (Hpos : 0 < 2 ^ Zpos p) by (apply Z.pow_pos_nonneg; lia).
    split.
    + rewrite Hm2, Hm1, shr_1_m by assumption.
      rewrite !Z.div_div by lia. now rewrite Hpow.
    + intros Hx Hmod. rewrite Hpow in Hmod.
      apply Z.mod_divide in Hmod; [|lia]. destruct Hmod as [c Hc].
      apply Hx2.
      * apply Hx1.
        -- rewrite shr_1_inexact, Hx, Hc by assumption.
           replace (c * (2 * (2 ^ Zpos p * 2 ^ Zpos p)))
             with (2 * (c * 2 ^ Zpos p * 2 ^ Zpos p)) by ring.
           now rewrite Z.odd_mul.
        -- rewrite shr_1_m, Hc by assumption.
           replace (c * (2 * (2 ^ Zpos p * 2 ^ Zpos p)))
             with (c * 2 ^ Zpos p * 2 ^ Zpos p * 2) by ring.
           rewrite Z.div_mul by lia. apply Z.mod_mul. lia.
      * rewrite Hm1, shr_1_m, Hc by assumption.
        replace (c * (2 * (2 ^ Zpos p * 2 ^ Zpos p)))
          with (c * 2 ^ Zpos p * 2 ^ Zpos p * 2) by ring.
        rewrite Z.div_mul by lia. rewrite Z.div_mul by lia.
        apply Z.mod_mul. lia.
  - simpl SpecFloat.iter_pos.
    destruct (IH r Hm) as [Hm1 Hx1].
    assert (H2 : 0 <= shr_m (SpecFloat.iter_pos shr_1 p r))
      by (rewrite Hm1; apply Z.div_pos; [assumption|lia]).
    destruct (IH _ H2) as [Hm2 Hx2].
    assert (Hpow : 2 ^ Zpos p~0 = 2 ^ Zpos p * 2 ^ Zpos p).
    { rewrite Pos2Z.inj_xO, <- Z.pow_add_r by lia. f_equal; lia. }
    assert (Hpos : 0 < 2 ^ Zpos p) by (apply Z.pow_pos_nonneg; lia).
    split.
    + rewrite Hm2, Hm1. rewrite Z.div_div by lia. now rewrite Hpow.
    + intros Hx Hmod. rewrite Hpow in Hmod.
      apply Z.mod_divide in Hmod; [|lia]. destruct Hmod as [c Hc].
      apply Hx2.
      * apply Hx1; [assumption|].
        rewrite Hc, Z.mul_assoc. apply Z.mod_mul. lia.
      * rewrite Hm1, Hc, Z.mul_assoc, Z.div_mul by lia.
        apply Z.mod_mul. lia.
  - simpl SpecFloat.iter_pos. split.
    + now rewrite shr_1_m.
    + intros Hx Hmod. rewrite shr_1_inexact, Hx by assumption.
      change (2 ^ 1) with 2 in Hmod. rewrite Zmod_odd in Hmod.
      destruct (Z.odd (shr_m r)); [discriminate|reflexivity].
Qed.

Lemma shr_fexp_truncate (m e : Z) (l : location) :
  0 <= m ->
  shr_m (fst (shr_fexp Float64.prec Float64.emax m e l))
  = fst (truncate64 m e) /\
  snd (shr_fexp Float64.prec Float64.emax m e l) = snd (truncate64 m e).
Proof.
  intros Hm. unfold shr_fexp, truncate64, shr.
  fold (shift64 m e).
  destruct (shift64 m e) as [|n|n] eqn:Hn; simpl.
  - split; [|reflexivity]. now destruct l as [|[| |]].
  - assert (H0 : 0 <= shr_m (shr_record_of_loc m l))
      by now destruct l as [|[| |]].
    destruct (shr_iter n _ H0) as [H _].
    split; [|reflexivity]. rewrite H. now destruct l as [|[| |]].
  - split; [|reflexivity]. now destruct l as [|[| |]].
Qed.

Lemma shr_fexp_exact (m e : Z) :
  0 <= m ->
  shift64 m e <= 0 \/ m mod 2 ^ shift64 m e = 0 ->
  loc_of_shr_record (fst (shr_fexp Float64.prec Float64.emax m e loc_Exact))
  = loc_Exact.
Proof.
  intros Hm Hex. unfold shr_fexp, shr. fold (shift64 m e).
  destruct (shift64 m e) as [|n|n] eqn:Hn; simpl; try reflexivity.
  destruct Hex as [Hex|Hex]; [lia|].
  apply loc_of_shr_record_exact.
  now apply (shr_iter n (Build_shr_record m false false)).
Qed.

Lemma round_nearest_even_bounds (t : Z) (l : location) :
  t <= round_nearest_even t l <= t + 1.
Proof.
  destruct l as [|[| |]]; simpl; try lia.
  destruct (Z.even t); lia.
Qed.

(** [binary_round_aux], as two truncations around one rounding step. *)
Lemma binary_round_aux_spec (s : bool) (m e : Z) (l : location) :
  0 <= m ->
  exists t',
    fst (truncate64 m e) <= t' <= fst (truncate64 m e) + 1 /\
    (l = loc_Exact ->
     shift64 m e <= 0 \/ m mod 2 ^ shift64 m e = 0 ->
     t' = fst (truncate64 m e)) /\
    binary_round_aux Float64.prec Float64.emax s m e l
    = match fst (truncate64 t' (snd (truncate64 m e))) with
      | Z0 => S754_zero s
      | Zpos m2 =>
          if snd (truncate64 t' (snd (truncate64 m e))) <=? 971
          then S754_finite s m2 (snd (truncate64 t' (snd (truncate64 m e))))
          else S754_infinity s
      | Zneg _ => S754_nan
      end.
Proof.
  intros Hm. unfold binary_round_aux.
  destruct (shr_fexp_truncate m e l Hm) as [Ht He].
  destruct (shr_fexp Float64.prec Float64.emax m e l) as [r1 e1] eqn:H1.
  simpl in Ht, He.
  exists (round_nearest_even (shr_m r1) (loc_of_shr_record r1)).
  pose proof (round_nearest_even_bounds (shr_m r1) (loc_of_shr_record r1))
    as Hb.
  assert (Ht0 : 0 <= fst (truncate64 m e)).
  { unfold truncate64.
    destruct (0 <? shift64 m e) eqn:Hs; simpl; [|assumption].
    apply Z.ltb_lt in Hs.
    apply Z.div_pos; [assumption|]. apply Z.pow_pos_nonneg; lia. }
  rewrite <- Ht. split; [exact Hb|]. split.
  - intros -> Hex.
    pose proof (shr_fexp_exact m e Hm Hex) as Hl. rewrite H1 in Hl.
    simpl in Hl. now rewrite Hl.
  - assert (Hr : 0 <= round_nearest_even (shr_m r1) (loc_of_shr_record r1))
      by lia.
    destruct (shr_fexp_truncate _ e1 loc_Exact Hr) as [Ht2 He2].
    destruct (shr_fexp Float64.prec Float64.emax
                (round_nearest_even (shr_m r1) (loc_of_shr_record r1))
                e1 loc_Exact) as [r2 e2] eqn:H2.
    simpl in Ht2, He2. rewrite <- He, <- Ht2, <- He2. reflexivity.
Qed.

Lemma pow2_pos (n : Z) : 0 <= n -> 0 < 2 ^ n.
Proof. intros; apply Z.pow_pos_nonneg; lia. Qed.

Lemma pow2_le (a b : Z) : a <= b -> 2 ^ a <= 2 ^ b.
Proof. intros; apply Z.pow_le_mono_r; lia. Qed.

Lemma pow2_add (a b : Z) : 0 <= a -> 0 <= b -> 2 ^ (a + b) = 2 ^ a * 2 ^ b.
Proof. intros; apply Z.pow_add_r; lia. Qed.

Lemma pow2_lt_inv (a b : Z) : 2 ^ a < 2 ^ b -> a < b.
Proof.
  intros H. destruct (Z_lt_le_dec a b) as [|Hle]; [assumption|].
  pose proof (pow2_le b a Hle). lia.
Qed.

Lemma ge_one_digits (m e : Z) : ge_one m e -> 1 <= Zdigits2 m + e.
Proof.
  intros [Hm He].
  pose proof (Zdigits2_spec m Hm) as [_ Hhi].
  pose proof (Zdigits2_pos m Hm).
  destruct (Z_lt_le_dec e 0) as [Hneg|]; [|lia].
  assert (- e < Zdigits2 m) by (apply pow2_lt_inv; lia). lia.
Qed.

Lemma le_one_digits (m e : Z) : 0 < m -> le_one m e -> Zdigits2 m + e <= 1.
Proof.
  intros Hm [He Hle].
  pose proof (Zdigits2_spec m Hm) as [Hlo _].
  assert (Zdigits2 m - 1 < - e + 1); [|lia].
  apply pow2_lt_inv.
  rewrite (pow2_add (- e) 1) by lia. change (2 ^ 1) with 2.
  pose proof (pow2_pos (- e)). lia.
Qed.

Lemma truncate64_fst_nonneg (m e : Z) : 0 <= m -> 0 <= fst (truncate64 m e).
Proof.
  intros Hm. unfold truncate64.
  destruct (0 <? shift64 m e) eqn:Hs; simpl; [|assumption].
  apply Z.ltb_lt in Hs. apply Z.div_pos; [assumption|].
  apply pow2_pos; lia.
Qed.

Lemma truncate64_fst_le (m e : Z) : 0 <= m -> fst (truncate64 m e) <= m.
Proof.
  intros Hm. unfold truncate64.
  destruct (0 <? shift64 m e) eqn:Hs; simpl; [|lia].
  apply Z.ltb_lt in Hs. pose proof (pow2_pos (shift64 m e)).
  apply Z.div_le_upper_bound; [lia|]. nia.
Qed.

(** A truncated mantissa has at most 53 bits. *)
Lemma truncate64_bound (m e : Z) : 0 < m -> fst (truncate64 m e) < 2 ^ 53.
Proof.
  intros Hm. pose proof (Zdigits2_spec m Hm) as [_ Hhi].
  pose proof (Zdigits2_pos m Hm) as Hd.
  unfold truncate64.
  destruct (0 <? shift64 m e) eqn:Hs; simpl.
  - apply Z.ltb_lt in Hs.
    apply Z.div_lt_upper_bound; [apply pow2_pos; lia|].
    rewrite <- pow2_add by lia.
    assert (2 ^ Zdigits2 m <= 2 ^ (shift64 m e + 53)); [|lia].
    apply pow2_le. unfold shift64. rewrite fexp64_eq. lia.
  - apply Z.ltb_ge in Hs. unfold shift64 in Hs. rewrite fexp64_eq in Hs.
    assert (2 ^ Zdigits2 m <= 2 ^ 53) by (apply pow2_le; lia). lia.
Qed.

Lemma truncate64_ge_one (m e : Z) :
  ge_one m e ->
  ge_one (fst (truncate64 m e)) (snd (truncate64 m e)).
Proof.
  intros Hge. pose proof (ge_one_digits m e Hge) as Hd.
  destruct Hge as [Hm He].
  pose proof (Zdigits2_spec m Hm) as [Hlo _].
  unfold truncate64.
  destruct (0 <? shift64 m e) eqn:Hs; simpl; [|now split].
  apply Z.ltb_lt in Hs.
  assert (Hn : shift64 m e = Zdigits2 m - 53)
    by (unfold shift64; rewrite fexp64_eq; lia).
  pose proof (pow2_pos (shift64 m e)) as Hp.
  split.
  - apply Z.div_str_pos. split; [lia|].
    assert (2 ^ shift64 m e <= 2 ^ (Zdigits2 m - 1))
      by (apply pow2_le; lia). lia.
  - destruct (Z_lt_le_dec 0 (e + shift64 m e)) as [Hpos|Hnp].
    + rewrite Z.pow_neg_r by lia.
      apply Z.div_pos; lia.
    + apply Z.div_le_lower_bound; [lia|].
      rewrite <- pow2_add by lia.
      replace (shift64 m e + - (e + shift64 m e)) with (- e) by lia.
      assumption.
Qed.

Lemma truncate64_le_one (m e : Z) :
  0 < m -> le_one m e ->
  le_one (fst (truncate64 m e)) (snd (truncate64 m e)) /\
  (0 < shift64 m e -> m mod 2 ^ shift64 m e <> 0 ->
   fst (truncate64 m e) + 1 <= 2 ^ (- snd (truncate64 m e))).
Proof.
  intros Hm Hle. pose proof (le_one_digits m e Hm Hle) as Hd.
  destruct Hle as [He Hle].
  unfold truncate64.
  destruct (0 <? shift64 m e) eqn:Hs; simpl.
  - apply Z.ltb_lt in Hs.
    assert (Hn : e + shift64 m e <= -52)
      by (unfold shift64; rewrite fexp64_eq; lia).
    pose proof (pow2_pos (shift64 m e)) as Hp.
    assert (Hsplit : 2 ^ (- e)
                     = 2 ^ shift64 m e * 2 ^ (- (e + shift64 m e))).
    { rewrite <- pow2_add by lia. f_equal; lia. }
    split; [split; [lia|]|].
    + apply Z.div_le_upper_bound; [lia|]. lia.
    + intros _ Hmod.
      pose proof (Z.div_mod m (2 ^ shift64 m e)) as Hdm.
      pose proof (Z.mod_pos_bound m (2 ^ shift64 m e)) as Hmb.
      nia.
  - apply Z.ltb_ge in Hs. split; [now split|]. lia.
Qed.

Lemma ge_one_mono (m m' e : Z) : ge_one m e -> m <= m' -> ge_one m' e.
Proof. unfold ge_one. lia. Qed.

(** Rounding a value that is at least 1 gives a float that is at least 1,
    or overflows. *)
Lemma round_ge_one (s : bool) (m e : Z) (l : location) :
  ge_one m e ->
  match binary_round_aux Float64.prec Float64.emax s m e l with
  | S754_finite s' m' e' =>
      s' = s /\ Zpos m' < 2 ^ 53 /\ ge_one (Zpos m') e'
  | S754_infinity s' => s' = s
  | _ => False
  end.
Proof.
  intros Hge. assert (Hm : 0 <= m) by (destruct Hge; lia).
  destruct (binary_round_aux_spec s m e l Hm) as (t' & Hb & _ & ->).
  pose proof (truncate64_ge_one m e Hge) as H1.
  assert (H1' : ge_one t' (snd (truncate64 m e)))
    by (apply (ge_one_mono _ _ _ H1); lia).
  pose proof (truncate64_ge_one _ _ H1') as [H2 H3].
  assert (Ht' : 0 < t') by (destruct H1'; lia).
  pose proof (truncate64_bound t' (snd (truncate64 m e)) Ht') as H4.
  destruct (fst (truncate64 t' (snd (truncate64 m e)))) as [|m2|m2];
    try lia.
  destruct (_ <=? 971); [|reflexivity].
  repeat split; assumption.
Qed.

(** Rounding an exact value that is at most 1 gives a float that is at
    most 1, or zero. *)
Lemma round_le_one (s : bool) (m e : Z) :
  0 < m -> le_one m e ->
  match binary_round_aux Float64.prec Float64.emax s m e loc_Exact with
  | S754_finite s' m' e' =>
      s' = s /\ Zpos m' < 2 ^ 53 /\ le_one (Zpos m') e'
  | S754_zero s' => s' = s
  | _ => False
  end.
Proof.
  intros Hm Hle.
  destruct (binary_round_aux_spec s m e loc_Exact) as (t' & Hb & Hex & ->);
    [lia|].
  destruct (truncate64_le_one m e Hm Hle) as [[He1 H1] Hup].
  pose proof (truncate64_fst_nonneg m e) as Hnn.
  assert (H1' : le_one t' (snd (truncate64 m e))).
  { split; [assumption|].
    destruct (Z_lt_le_dec 0 (shift64 m e)) as [Hs|Hs].
    - destruct (Z.eq_dec (m mod 2 ^ shift64 m e) 0) as [Hz|Hnz].
      + rewrite Hex; auto.
      + specialize (Hup Hs Hnz). lia.
    - rewrite Hex; auto. }
  pose proof (truncate64_fst_nonneg t' (snd (truncate64 m e))) as Hnn2.
  pose proof (truncate64_fst_le t' (snd (truncate64 m e))) as Hle2.
  destruct (fst (truncate64 t' (snd (truncate64 m e)))) as [|m2|m2] eqn:Ht2;
    [reflexivity| |lia].
  assert (Ht' : 0 < t') by lia.
  destruct (truncate64_le_one _ _ Ht' H1') as [[He2 H2] _].
  pose proof (truncate64_bound t' (snd (truncate64 m e)) Ht') as H4.
  rewrite Ht2 in H2, H4.
  replace (_ <=? 971) with true by (symmetry; apply Z.leb_le; lia).
  repeat split; assumption.
Qed.

Lemma valid_binary_mantissa53 (x : float) :
  valid_binary Float64.prec Float64.emax x = true -> mantissa53 x.
Proof.
  destruct x as [| | |s m e]; simpl; trivial.
  unfold bounded, canonical_mantissa. rewrite fexp64_eq.
  intros H. apply andb_prop in H as [H _]. apply Z.eqb_eq in H.
  pose proof (digits2_pos_spec m) as [_ Hhi].
  assert (2 ^ Zpos (digits2_pos m) <= 2 ^ 53) by (apply pow2_le; lia).
  lia.
Qed.

Lemma round_mantissa53 (s : bool) (m e : Z) (l : location) :
  0 <= m -> mantissa53 (binary_round_aux Float64.prec Float64.emax s m e l).
Proof.
  intros Hm.
  destruct (binary_round_aux_spec s m e l Hm) as (t' & Hb & _ & ->).
  pose proof (truncate64_fst_nonneg m e Hm) as Hnn.
  pose proof (truncate64_fst_le t' (snd (truncate64 m e))) as Hle2.
  destruct (fst (truncate64 t' (snd (truncate64 m e)))) as [|m2|m2] eqn:Ht2;
    simpl; trivial.
  destruct (_ <=? 971); simpl; trivial.
  rewrite <- Ht2. apply truncate64_bound. lia.
Qed.

Lemma iter_xO (m d : positive) :
  Zpos (Pos.iter xO m d) = Zpos m * 2 ^ Zpos d.
Proof.
  induction d as [|d IH] using Pos.peano_ind.
  - simpl. lia.
  - rewrite Pos.iter_succ, Pos2Z.inj_xO, IH, Pos2Z.inj_succ.
    rewrite Z.pow_succ_r by lia. ring.
Qed.

Lemma shl_align_spec (m : positive) (e e' : Z) :
  snd (shl_align m e e') = Z.min e e' /\
  Zpos (fst (shl_align m e e')) = Zpos m * 2 ^ (e - Z.min e e').
Proof.
  unfold shl_align.
  destruct (e' - e) as [|d|d] eqn:Hd; simpl.
  - replace (Z.min e e') with e by lia.
    rewrite Z.sub_diag. simpl. lia.
  - replace (Z.min e e') with e by lia.
    rewrite Z.sub_diag. simpl. lia.
  - replace (Z.min e e') with e' by lia.
    split; [reflexivity|]. rewrite iter_xO. f_equal. f_equal. lia.
Qed.

Lemma Zdigits2_shift (m j : Z) :
  0 < m -> 0 <= j -> Zdigits2 (m * 2 ^ j) = Zdigits2 m + j.
Proof.
  intros Hm Hj. pose proof (Zdigits2_spec m Hm) as [Hlo Hhi].
  pose proof (Zdigits2_pos m Hm). pose proof (pow2_pos j Hj).
  apply Zdigits2_unique; [nia|].
  replace (Zdigits2 m + j - 1) with (Zdigits2 m - 1 + j) by lia.
  rewrite !pow2_add by lia. nia.
Qed.

(** Rounding keeps a mantissa that already fits, and one whose dropped
    bits are all zero. *)
Lemma round_exact (s : bool) (m e : Z) :
  0 < m ->
  shift64 m e <= 0 \/
  (m mod 2 ^ shift64 m e = 0 /\ -1074 <= Zdigits2 m + e - 53) ->
  0 < fst (truncate64 m e) /\
  binary_round_aux Float64.prec Float64.emax s m e loc_Exact
  = if snd (truncate64 m e) <=? 971
    then S754_finite s (Z.to_pos (fst (truncate64 m e)))
           (snd (truncate64 m e))
    else S754_infinity s.
Proof.
  intros Hm Hex.
  destruct (binary_round_aux_spec s m e loc_Exact) as (t' & _ & Ht' & ->);
    [lia|].
  rewrite Ht' by tauto. clear t' Ht'.
  assert (Hfix : 0 < fst (truncate64 m e) /\
                 shift64 (fst (truncate64 m e)) (snd (truncate64 m e)) <= 0).
  { unfold truncate64.
    destruct (0 <? shift64 m e) eqn:Hs; simpl.
    - apply Z.ltb_lt in Hs. destruct Hex as [|[Hmod Hnorm]]; [lia|].
      pose proof (Zdigits2_spec m Hm) as [Hlo Hhi].
      assert (Hn : shift64 m e = Zdigits2 m - 53)
        by (unfold shift64; rewrite fexp64_eq; lia).
      pose proof (pow2_pos (shift64 m e)) as Hp.
      assert (Hd : Zdigits2 (m / 2 ^ shift64 m e) = 53).
      { assert (Hlow : 2 ^ 52 <= m / 2 ^ shift64 m e).
        { apply Z.div_le_lower_bound; [lia|].
          rewrite <- pow2_add by lia.
          replace (shift64 m e + 52) with (Zdigits2 m - 1) by lia.
          assumption. }
        apply Zdigits2_unique; [lia|]. split; [exact Hlow|].
        pose proof (truncate64_bound m e Hm) as Hb.
        unfold truncate64 in Hb.
        replace (0 <? shift64 m e) with true in Hb
          by (symmetry; apply Z.ltb_lt; lia).
        exact Hb. }
      split.
      + apply Z.div_str_pos. split; [lia|].
        assert (2 ^ shift64 m e <= 2 ^ (Zdigits2 m - 1))
          by (apply pow2_le; lia). lia.
      + unfold shift64 at 1. rewrite Hd, fexp64_eq. lia.
    - apply Z.ltb_ge in Hs. split; [assumption|lia]. }
  destruct Hfix as [Hpos Hfix]. split; [assumption|].
  assert (Htr : truncate64 (fst (truncate64 m e)) (snd (truncate64 m e))
                = (fst (truncate64 m e), snd (truncate64 m e))).
  { unfold truncate64 at 1.
    replace (0 <? _) with false by (symmetry; apply Z.ltb_ge; lia).
    reflexivity. }
  rewrite Htr. simpl.
  destruct (fst (truncate64 m e)) as [|t|t]; try lia. reflexivity.
Qed.

Lemma value_is_scaled (m e M E : Z) :
  value_is m e M -> E <= e -> E <= 0 -> m * 2 ^ (e - E) = M * 2 ^ (- E).
Proof.
  unfold value_is. intros H HE HE0.
  destruct (0 <=? e) eqn:He.
  - apply Z.leb_le in He. subst M.
    replace (e - E) with (e + - E) by lia. rewrite pow2_add by lia. ring.
  - apply Z.leb_gt in He. subst m.
    replace (- E) with (- e + (e - E)) by lia.
    rewrite pow2_add by lia. ring.
Qed.

Lemma value_is_scaled_eq (m e m' e' M E : Z) :
  value_is m e M -> value_is m' e' M -> E <= e -> E <= e' ->
  m * 2 ^ (e - E) = m' * 2 ^ (e' - E).
Proof.
  intros H H' HE HE'.
  destruct (Z_lt_le_dec 0 E) as [Hpos|Hnp].
  - unfold value_is in H, H'.
    replace (0 <=? e) with true in H by (symmetry; apply Z.leb_le; lia).
    replace (0 <=? e') with true in H' by (symmetry; apply Z.leb_le; lia).
    pose proof (pow2_pos E).
    assert (m * 2 ^ (e - E) * 2 ^ E = m' * 2 ^ (e' - E) * 2 ^ E); [|nia].
    rewrite <- !Z.mul_assoc, <- !pow2_add by lia.
    replace (e - E + E) with e by lia.
    replace (e' - E + E) with e' by lia. congruence.
  - rewrite (value_is_scaled m e M E), (value_is_scaled m' e' M E);
      auto.
Qed.

(** The conversion of an integer that a float can hold is exact. *)
Lemma binary_round_exact (s : bool) (M : positive) (m0 k : Z) :
  0 < m0 < 2 ^ 53 -> 0 <= k -> Zpos M = m0 * 2 ^ k ->
  (971 < k /\
   binary_round Float64.prec Float64.emax s M 0 = S754_infinity s) \/
  exists mf ef,
    binary_round Float64.prec Float64.emax s M 0 = S754_finite s mf ef /\
    value_is (Zpos mf) ef (Zpos M).
Proof.
  intros Hm0 Hk HM. unfold binary_round.
  destruct (shl_align_spec M 0 (fexp64 (Zpos (digits2_pos M) + 0)))
    as [He Hm].
  destruct (shl_align M 0 (fexp64 (Zpos (digits2_pos M) + 0)))
    as [mz ez] eqn:Hsh.
  simpl in He, Hm. rewrite Z.add_0_r in He, Hm.
  change (Zpos (digits2_pos M)) with (Zdigits2 (Zpos M)) in He, Hm.
  pose proof (Zdigits2_spec (Zpos M) ltac:(lia)) as [Hlo Hhi].
  pose proof (Zdigits2_pos (Zpos M) ltac:(lia)) as Hdpos.
  assert (Hdk : Zdigits2 (Zpos M) <= 53 + k).
  { assert (Zdigits2 (Zpos M) - 1 < 53 + k); [|lia].
    apply pow2_lt_inv. rewrite pow2_add by lia.
    pose proof (pow2_pos k Hk). nia. }
  rewrite fexp64_eq in He, Hm.
  destruct (Z_lt_le_dec (Z.max (Zdigits2 (Zpos M) - 53) (-1074)) 0)
    as [Hneg|Hnn].
  - (* the mantissa is shifted left to the canonical exponent *)
    replace (Z.min 0 _) with (Z.max (Zdigits2 (Zpos M) - 53) (-1074))
      in He, Hm by lia.
    assert (Hdz : Zdigits2 (Zpos mz) = Zdigits2 (Zpos M) - ez).
    { rewrite Hm, Zdigits2_shift by lia. lia. }
    destruct (round_exact s (Zpos mz) ez) as [_ Hr]; [lia| |].
    { left. unfold shift64. rewrite Hdz, fexp64_eq. lia. }
    right. rewrite Hr.
    assert (Htr : truncate64 (Zpos mz) ez = (Zpos mz, ez)).
    { unfold truncate64.
      replace (0 <? _) with false; [reflexivity|].
      symmetry; apply Z.ltb_ge. unfold shift64.
      rewrite Hdz, fexp64_eq. lia. }
    rewrite Htr. simpl.
    replace (ez <=? 971) with true by (symmetry; apply Z.leb_le; lia).
    exists mz, ez. split; [reflexivity|].
    unfold value_is.
    replace (0 <=? ez) with false by (symmetry; apply Z.leb_gt; lia).
    rewrite Hm. f_equal. f_equal. lia.
  - (* the mantissa is kept or shifted right by whole zero bits *)
    replace (Z.min 0 _) with 0 in He, Hm by lia.
    rewrite Z.sub_0_r in Hm. simpl in Hm. rewrite Z.mul_1_r in Hm.
    injection Hm as ->. subst ez.
    assert (Hs : shift64 (Zpos M) 0 = Zdigits2 (Zpos M) - 53).
    { unfold shift64. rewrite Z.add_0_r, fexp64_eq. lia. }
    assert (Hsk : 0 <= shift64 (Zpos M) 0 <= k) by lia.
    assert (Hdiv : Zpos M
                   = m0 * 2 ^ (k - shift64 (Zpos M) 0)
                     * 2 ^ shift64 (Zpos M) 0).
    { rewrite <- Z.mul_assoc, <- pow2_add by lia.
      replace (k - shift64 (Zpos M) 0 + shift64 (Zpos M) 0) with k by lia.
      assumption. }
    pose proof (pow2_pos (shift64 (Zpos M) 0)) as Hp.
    destruct (round_exact s (Zpos M) 0) as [Hpos Hr]; [lia| |].
    { right. split; [|lia]. rewrite Hdiv at 1. apply Z.mod_mul. lia. }
    rewrite Hr.
    destruct (snd (truncate64 (Zpos M) 0) <=? 971) eqn:Hov.
    2:{ left. split; [|reflexivity]. apply Z.leb_gt in Hov.
        unfold truncate64 in Hov.
        destruct (0 <? shift64 (Zpos M) 0); simpl in Hov; lia. }
    right. eexists _, _. split; [reflexivity|].
    rewrite Z2Pos.id by assumption.
    unfold truncate64, value_is.
    destruct (0 <? shift64 (Zpos M) 0) eqn:H0; simpl.
    + replace (0 <=? 0 + shift64 (Zpos M) 0) with true
        by (symmetry; apply Z.leb_le; lia).
      rewrite Hdiv at 1. rewrite Z.div_mul by lia.
      rewrite Z.add_0_l. lia.
    + simpl. lia.
Qed.

Lemma binary_round_le_one (s : bool) (D : positive) (E : Z) :
  le_one (Zpos D) E ->
  match binary_round Float64.prec Float64.emax s D E with
  | S754_finite s' m' e' =>
      s' = s /\ Zpos m' < 2 ^ 53 /\ le_one (Zpos m') e'
  | S754_zero s' => s' = s
  | _ => False
  end.
Proof.
  intros [HE HD]. unfold binary_round.
  destruct (shl_align_spec D E (fexp64 (Zpos (digits2_pos D) + E)))
    as [He Hm].
  destruct (shl_align D E (fexp64 (Zpos (digits2_pos D) + E)))
    as [mz ez].
  simpl in He, Hm.
  apply round_le_one; [lia|].
  split; [lia|]. rewrite Hm.
  replace (- ez) with (- E + (E - Z.min E (fexp64 (Zpos (digits2_pos D) + E))))
    by lia.
  rewrite pow2_add by lia.
  pose proof (pow2_pos (E - Z.min E (fexp64 (Zpos (digits2_pos D) + E)))).
  nia.
Qed.




End Rounding64.

(** * The generator emits coefficients in normal form *)

Section GeneratorNormalForm.

Lemma isclose_zero (s : bool) :
  Float64.isclose (S754_zero s) Float64.zero = true.
Proof. reflexivity. Qed.

Lemma abs_cond_Zopp (s : bool) (p : positive) (x : Z) :
  0 <= x -> Z.abs (cond_Zopp s (Zpos p) * x) = Zpos p * x.
Proof.
  intros Hx. rewrite Z.abs_mul, (Z.abs_eq x) by assumption.
  now destruct s.
Qed.

Lemma floor_finite (s : bool) (m : positive) (e a : Z) :
  Zpos m < 2 ^ 53 ->
  Float64.floor (S754_finite s m e) = Ok a ->
  a <> 0 ->
  (a <? 0) = s /\
  exists m0 k,
    0 < m0 < 2 ^ 53 /\ 0 <= k /\ k <= Z.max e 0 /\ Z.abs a = m0 * 2 ^ k.
Proof.
  intros Hm Hfl Ha. simpl in Hfl. injection Hfl as Hfl.
  destruct (0 <=? e) eqn:He.
  - apply Z.leb_le in He. pose proof (pow2_pos e He) as Hp.
    split.
    + destruct s; simpl in Hfl; [apply Z.ltb_lt|apply Z.ltb_ge]; nia.
    + exists (Zpos m), e. repeat split; try lia.
      subst a. apply abs_cond_Zopp. lia.
  - apply Z.leb_gt in He.
    assert (Hp : 2 <= 2 ^ (- e)).
    { change 2 with (2 ^ 1) at 1. apply pow2_le. lia. }
    destruct s; simpl in Hfl.
    + assert (Hb : - Zpos m <= a < 0).
      { subst a. change (Zneg m) with (- Zpos m). split.
        - apply Z.div_le_lower_bound; [lia|]. nia.
        - apply Z.div_lt_upper_bound; lia. }
      split; [apply Z.ltb_lt; lia|].
      exists (- a), 0. simpl. repeat split; lia.
    + assert (Hb : 0 <= a <= Zpos m).
      { subst a. split.
        - apply Z.div_pos; lia.
        - apply Z.div_le_upper_bound; [lia|]. nia. }
      split; [apply Z.ltb_ge; lia|].
      exists a, 0. simpl. repeat split; lia.
Qed.

Lemma of_int_value (a : Z) (fa : float) :
  (exists m0 k, 0 < m0 < 2 ^ 53 /\ 0 <= k /\ Z.abs a = m0 * 2 ^ k) ->
  Float64.of_int a = Ok fa ->
  exists mf ef,
    fa = S754_finite (a <? 0) mf ef /\ value_is (Zpos mf) ef (Z.abs a).
Proof.
  intros (m0 & k & Hm0 & Hk & Habs). unfold Float64.of_int.
  assert (Hp : 0 < 2 ^ k) by (apply pow2_pos; lia).
  destruct a as [|M|M]; simpl binary_normalize; simpl Z.abs in *.
  - nia.
  - destruct (binary_round_exact false M m0 k Hm0 Hk Habs)
      as [[_ ->]|(mf & ef & -> & Hv)]; [discriminate|].
    intros [= <-]. now exists mf, ef.
  - destruct (binary_round_exact true M m0 k Hm0 Hk Habs)
      as [[_ ->]|(mf & ef & -> & Hv)]; [discriminate|].
    intros [= <-]. now exists mf, ef.
Qed.

(** An integer that a double can hold is converted without overflow. *)
Lemma of_int_returns (a : Z) :
  (exists m0 k, 0 < m0 < 2 ^ 53 /\ 0 <= k <= 971 /\ Z.abs a = m0 * 2 ^ k) ->
  exists fa, Float64.of_int a = Ok fa.
Proof.
  intros (m0 & k & Hm0 & Hk & Habs). unfold Float64.of_int.
  destruct a as [|M|M]; simpl binary_normalize; simpl Z.abs in *.
  - now eexists.
  - destruct (binary_round_exact false M m0 k Hm0 ltac:(lia) Habs)
      as [[? _]|(mf & ef & -> & _)]; [lia|now eexists].
  - destruct (binary_round_exact true M m0 k Hm0 ltac:(lia) Habs)
      as [[? _]|(mf & ef & -> & _)]; [lia|now eexists].
Qed.

(** The difference [remainder - a] before its rounding: zero for an
    integral remainder, else the remainder of the floor division. *)
Lemma sub_floor_difference (s : bool) (m : positive) (e a : Z) (fa : float) :
  Zpos m < 2 ^ 53 ->
  Float64.floor (S754_finite s m e) = Ok a ->
  a <> 0 ->
  Float64.of_int a = Ok fa ->
  exists E,
    E <= e /\
    Float64.sub (S754_finite s m e) fa
    = binary_normalize Float64.prec Float64.emax
        (if 0 <=? e then 0
         else cond_Zopp s (Zpos m) mod 2 ^ (- e) * 2 ^ (e - E))
        E false.
Proof.
  intros Hm53 Hfl Ha Hof.
  destruct (floor_finite s m e a Hm53 Hfl Ha)
    as [Hsign (m0 & k & Hm0 & Hk & _ & Habs)].
  destruct (of_int_value a fa) as (mf & ef & -> & Hv); [eauto|assumption|].
  rewrite Hsign. unfold Float64.sub, SFsub.
  destruct (shl_align_spec m e (Z.min e ef)) as [_ H1].
  destruct (shl_align_spec mf ef (Z.min e ef)) as [_ H2].
  rewrite H1, H2.
  replace (Z.min e (Z.min e ef)) with (Z.min e ef) by lia.
  replace (Z.min ef (Z.min e ef)) with (Z.min e ef) by lia.
  exists (Z.min e ef). split; [lia|].
  set (E := Z.min e ef).
  simpl in Hfl. injection Hfl as Hfl.
  destruct (0 <=? e) eqn:He; f_equal.
  - (* an integral remainder *)
    apply Z.leb_le in He.
    assert (Hvm : value_is (Zpos m) e (Z.abs a)).
    { unfold value_is.
      replace (0 <=? e) with true by (symmetry; apply Z.leb_le; lia).
      pose proof (pow2_pos e He).
      subst a. symmetry. apply abs_cond_Zopp. lia. }
    rewrite (value_is_scaled_eq _ _ _ _ _ E Hvm Hv) by (unfold E; lia).
    lia.
  - apply Z.leb_gt in He.
    assert (HE : E <= e) by (unfold E; lia).
    assert (Hp : 0 < 2 ^ (- e)) by (apply pow2_pos; lia).
    rewrite (value_is_scaled _ _ _ E Hv) by (unfold E; lia).
    assert (Hsa : cond_Zopp s (Z.abs a * 2 ^ (- E)) = a * 2 ^ (- E)).
    { destruct s; simpl.
      - apply Z.ltb_lt in Hsign. rewrite Z.abs_neq by lia. ring.
      - apply Z.ltb_ge in Hsign. now rewrite Z.abs_eq by lia. }
    rewrite Hsa.
    pose proof (Z.div_mod (cond_Zopp s (Zpos m)) (2 ^ (- e)) ltac:(lia))
      as Hdm.
    rewrite Hfl in Hdm.
    assert (Hsplit : 2 ^ (- E) = 2 ^ (- e) * 2 ^ (e - E)).
    { rewrite <- pow2_add by lia. f_equal; lia. }
    replace (cond_Zopp s (Zpos m * 2 ^ (e - E)))
      with (cond_Zopp s (Zpos m) * 2 ^ (e - E))
      by (destruct s; simpl; lia).
    rewrite Hdm at 1. rewrite Hsplit. ring.
Qed.

(** The fractional part [remainder - a] lies between 0 and 1. *)
Lemma fractional_part_unit (rem fa : float) (a : Z) :
  mantissa53 rem ->
  Float64.floor rem = Ok a ->
  Float64.of_int a = Ok fa ->
  unit_fraction (Float64.sub rem fa).
Proof.
  intros Hm53 Hfl Hof.
  destruct rem as [s0| |
                  |s m e]; try discriminate.
  - (* a zero remainder *)
    injection Hfl as <-. injection Hof as <-. now destruct s0.
  - simpl in Hm53.
    destruct (Z.eq_dec a 0) as [->|Ha].
    + (* the floor is 0: the remainder is its own fractional part *)
      injection Hof as <-. simpl Float64.sub.
      simpl in Hfl. injection Hfl as Hfl.
      destruct (0 <=? e) eqn:He.
      * apply Z.leb_le in He. pose proof (pow2_pos e He).
        destruct s; simpl in Hfl; nia.
      * apply Z.leb_gt in He.
        assert (Hp : 0 < 2 ^ (- e)) by (apply pow2_pos; lia).
        destruct s; simpl in Hfl.
        -- exfalso.
           assert (Zneg m / 2 ^ (- e) < 0); [|lia].
           apply Z.div_lt_upper_bound; lia.
        -- simpl. split; [assumption|]. split; [lia|].
           destruct (Z_lt_le_dec (2 ^ (- e)) (Zpos m)) as [Hlt|]; [|lia].
           exfalso. assert (0 < Zpos m / 2 ^ (- e)); [|lia].
           apply Z.div_str_pos. lia.
    + destruct (sub_floor_difference s m e a fa Hm53 Hfl Ha Hof)
        as (E & HE & ->).
      destruct (0 <=? e) eqn:He; [exact I|].
      apply Z.leb_gt in He.
      assert (Hp : 0 < 2 ^ (- e)) by (apply pow2_pos; lia).
      assert (Hq : 0 < 2 ^ (e - E)) by (apply pow2_pos; lia).
      pose proof (Z.mod_pos_bound (cond_Zopp s (Zpos m)) (2 ^ (- e)) Hp)
        as Hmb.
      set (r := cond_Zopp s (Zpos m) mod 2 ^ (- e)) in *.
      assert (Hsplit : 2 ^ (- E) = 2 ^ (- e) * 2 ^ (e - E)).
      { rewrite <- pow2_add by lia. f_equal; lia. }
      destruct (r * 2 ^ (e - E)) as [|D|D] eqn:HD; simpl; [exact I| |nia].
      pose proof (binary_round_le_one false D E) as Hr.
      destruct (binary_round Float64.prec Float64.emax false D E)
        as [s'| | |s' m' e']; try (apply Hr; split; nia).
      * exact I.
      * destruct Hr as (-> & Hb & Hle); [split; nia|]. now split.
Qed.

(** A float without a fractional part. *)
Lemma fractional_part_integral (s : bool) (m : positive) (e a : Z)
  (fa : float) :
  Zpos m < 2 ^ 53 ->
  0 <= e \/ Zpos m mod 2 ^ (- e) = 0 ->
  Float64.floor (S754_finite s m e) = Ok a ->
  Float64.of_int a = Ok fa ->
  Float64.sub (S754_finite s m e) fa = S754_zero false.
Proof.
  intros Hm53 Hint Hfl Hof.
  assert (Hmod : e < 0 -> cond_Zopp s (Zpos m) mod 2 ^ (- e) = 0).
  { intros He. destruct Hint as [|Hint]; [lia|].
    assert (Hp : 0 < 2 ^ (- e)) by (apply pow2_pos; lia).
    destruct s; simpl; [|assumption].
    change (Zneg m) with (- Zpos m). apply Z.mod_opp_l_z; [lia|assumption]. }
  assert (Ha : a <> 0).
  { simpl in Hfl. injection Hfl as <-.
    destruct (0 <=? e) eqn:He.
    - apply Z.leb_le in He. pose proof (pow2_pos e He).
      destruct s; simpl; nia.
    - apply Z.leb_gt in He. specialize (Hmod He).
      assert (Hp : 0 < 2 ^ (- e)) by (apply pow2_pos; lia).
      pose proof (Z.div_mod (cond_Zopp s (Zpos m)) (2 ^ (- e)) ltac:(lia)).
      destruct s; simpl in *; nia. }
  destruct (sub_floor_difference s m e a fa Hm53 Hfl Ha Hof)
    as (E & HE & ->).
  destruct (0 <=? e) eqn:He; [reflexivity|].
  apply Z.leb_gt in He. now rewrite (Hmod He).
Qed.

(** The quotient computed for [1.0 / fractional_part] is at least 1. *)
Lemma div_core_ge_one (mf : positive) (ef : Z) :
  le_one (Zpos mf) ef ->
  ge_one
    (fst (fst (SFdiv_core_binary Float64.prec Float64.emax
                 4503599627370496 (-52) (Zpos mf) ef)))
    (snd (fst (SFdiv_core_binary Float64.prec Float64.emax
                 4503599627370496 (-52) (Zpos mf) ef))).
Proof.
  intros [Hef Hmf]. unfold SFdiv_core_binary.
  change (Zdigits2 4503599627370496) with 53.
  set (d2 := Zdigits2 (Zpos mf)).
  set (e' := Z.min (fexp64 (53 + -52 - (d2 + ef))) (-52 - ef)).
  set (sh := -52 - ef - e').
  set (m' := match sh with
             | Z0 => 4503599627370496
             | Zpos _ => Z.shiftl 4503599627370496 sh
             | Zneg _ => 0
             end).
  assert (Hsh : 0 <= sh) by (unfold sh, e'; lia).
  assert (Hm' : m' = 2 ^ (52 + sh)).
  { unfold m'. rewrite pow2_add by lia. change (2 ^ 52) with 4503599627370496.
    destruct sh as [|p|p] eqn:Hp; [simpl; lia| |lia].
    rewrite Z.shiftl_mul_pow2 by lia. reflexivity. }
  destruct (Z.div_eucl m' (Zpos mf)) as [q r] eqn:Hdiv. simpl.
  assert (Hq : q = m' / Zpos mf) by (unfold Z.div; now rewrite Hdiv).
  pose proof (Zdigits2_spec (Zpos mf) ltac:(lia)) as [_ Hhi]. fold d2 in Hhi.
  assert (Hd2 : 0 < d2) by (apply Zdigits2_pos; lia).
  destruct (Z_lt_le_dec 0 e') as [Hpos|Hnp].
  - (* a quotient above 2^53: its exponent is positive *)
    assert (He' : e' <= -52 - d2 - ef).
    { unfold e' in *. rewrite fexp64_eq in *. lia. }
    assert (Hle : Zpos mf <= m').
    { rewrite Hm'.
      assert (2 ^ d2 <= 2 ^ (52 + sh)) by (apply pow2_le; unfold sh; lia).
      lia. }
    assert (0 < q).
    { rewrite Hq. apply Z.div_str_pos. lia. }
    split; [assumption|]. rewrite Z.pow_neg_r by lia. lia.
  - assert (Hp : 0 < 2 ^ (- e')) by (apply pow2_pos; lia).
    assert (Hle : Zpos mf * 2 ^ (- e') <= m').
    { rewrite Hm'. replace (52 + sh) with (- ef + - e') by (unfold sh; lia).
      rewrite pow2_add by lia. nia. }
    assert (2 ^ (- e') <= q).
    { rewrite Hq. apply Z.div_le_lower_bound; lia. }
    split; lia.
Qed.

Lemma reciprocal_at_least_one (mf : positive) (ef : Z) :
  le_one (Zpos mf) ef ->
  mantissa53 (SFdiv Float64.prec Float64.emax Float64.one
                (S754_finite false mf ef)) /\
  at_least_one (SFdiv Float64.prec Float64.emax Float64.one
                  (S754_finite false mf ef)).
Proof.
  intros Hle. pose proof (div_core_ge_one mf ef Hle) as Hge.
  unfold SFdiv, Float64.one.
  destruct (SFdiv_core_binary Float64.prec Float64.emax
              4503599627370496 (-52) (Zpos mf) ef) as [[q e'] l].
  simpl in Hge. simpl xorb.
  split.
  - apply round_mantissa53. destruct Hge; lia.
  - pose proof (round_ge_one false q e' l Hge) as Hr.
    destruct (binary_round_aux Float64.prec Float64.emax false q e' l)
      as [| | |s' m2 e2]; simpl; try tauto.
    destruct Hr as (-> & _ & Hr). exact Hr.
Qed.

Lemma floor_at_least_one (rem : float) (a : Z) :
  at_least_one rem -> Float64.floor rem = Ok a -> 1 <= a.
Proof.
  destruct rem as [| | |[|] m e]; simpl; try tauto; try discriminate.
  intros [_ Hge] [= <-].
  destruct (0 <=? e) eqn:He.
  - apply Z.leb_le in He. pose proof (pow2_pos e He). nia.
  - apply Z.leb_gt in He.
    apply Z.div_le_lower_bound; [apply pow2_pos; lia|lia].
Qed.

(** One turn of the loop that does not leave it: the next remainder is
    a reciprocal that is at least 1. *)
Lemma next_remainder (rem fa rem' : float) (a : Z) :
  mantissa53 rem ->
  Float64.floor rem = Ok a ->
  Float64.of_int a = Ok fa ->
  Float64.isclose (Float64.sub rem fa) Float64.zero = false ->
  Float64.div Float64.one (Float64.sub rem fa) = Ok rem' ->
  mantissa53 rem' /\ at_least_one rem'.
Proof.
  intros Hm Hfl Hof Hclose Hdiv.
  pose proof (fractional_part_unit rem fa a Hm Hfl Hof) as Hfrac.
  destruct (Float64.sub rem fa) as [s| | |[|] mf ef]; simpl in Hfrac;
    try tauto.
  - now rewrite isclose_zero in Hclose.
  - simpl in Hdiv. injection Hdiv as <-.
    now apply reciprocal_at_least_one.
Qed.

Lemma cf_loop_at_least_one (n : nat) (rem : float) (acc l : list Z) :
  mantissa53 rem -> at_least_one rem ->
  cf_loop n rem acc = Ok l ->
  exists l', l = acc ++ l' /\ Forall (fun a => 1 <= a) l'.
Proof.
  revert rem acc; induction n as [|n IH]; intros rem acc Hm Hge; simpl.
  - intros [= <-]. exists []. now rewrite app_nil_r.
  - destruct (Float64.floor rem) as [a|] eqn:Hfl; [|discriminate].
    simpl. destruct (Float64.of_int a) as [fa|] eqn:Hof; [|discriminate].
    simpl. pose proof (floor_at_least_one rem a Hge Hfl) as Ha.
    destruct (Float64.isclose _ _) eqn:Hclose.
    + intros [= <-]. exists [a]. split; [reflexivity|]. now constructor.
    + destruct (Float64.div _ _) as [rem'|] eqn:Hdiv; [|discriminate].
      simpl. intros Hloop.
      destruct (next_remainder rem fa rem' a Hm Hfl Hof Hclose Hdiv)
        as [Hm' Hge'].
      destruct (IH rem' (acc ++ [a]) Hm' Hge' Hloop) as (l' & -> & Hl').
      exists (a :: l'). rewrite <- app_assoc. split; [reflexivity|].
      now constructor.
Qed.

Lemma cf_loop_normal_form (n : nat) (rem : float) (l : list Z) :
  mantissa53 rem -> cf_loop n rem [] = Ok l -> normal_form l.
Proof.
  intros Hm. destruct n as [|n]; simpl.
  - intros [= <-]. constructor.
  - destruct (Float64.floor rem) as [a|] eqn:Hfl; [|discriminate].
    simpl. destruct (Float64.of_int a) as [fa|] eqn:Hof; [|discriminate].
    simpl. destruct (Float64.isclose _ _) eqn:Hclose.
    + intros [= <-]. constructor.
    + destruct (Float64.div _ _) as [rem'|] eqn:Hdiv; [|discriminate].
      simpl. intros Hloop.
      destruct (next_remainder rem fa rem' a Hm Hfl Hof Hclose Hdiv)
        as [Hm' Hge'].
      destruct (cf_loop_at_least_one n rem' [a] l Hm' Hge' Hloop)
        as (l' & -> & Hl').
      exact Hl'.
Qed.

End GeneratorNormalForm.

(** * Properties of the Coefficient Generator *)

Section Generator.

Lemma of_int_mantissa53 (n : Z) (f : float) :
  Float64.of_int n = Ok f -> mantissa53 f.
Proof.
  unfold Float64.of_int.
  assert (H : mantissa53
                (binary_normalize Float64.prec Float64.emax n 0 false)).
  { destruct n as [|M|M]; simpl; trivial; unfold binary_round;
      destruct (shl_align _ _ _) as [mz ez]; now apply round_mantissa53. }
  destruct (binary_normalize _ _ _ _ _); try discriminate;
    intros [= <-]; exact H.
Qed.

Lemma to_float_mantissa53 (x : number) (f : float) :
  binary64_number x -> to_float x = Ok f -> mantissa53 f.
Proof.
  destruct x as [n|g|re im]; simpl; intros Hx Hf.
  - now apply (of_int_mantissa53 n).
  - now injection Hf as <-.
  - discriminate.
Qed.

(** Every coefficient after the first is at least 1. *)
Lemma get_continued_fraction_normal_form (x : number) (max_terms : Z)
  (cf : list Z) :
  binary64_number x ->
  get_continued_fraction x max_terms = Ok cf ->
  normal_form cf.
Proof.
  unfold get_continued_fraction. intros Hx.
  destruct (to_float x) as [rem|] eqn:Hrem; [|discriminate]. simpl.
  apply cf_loop_normal_form. now apply (to_float_mantissa53 x).
Qed.

(** The traced loop returns the list of the source's loop. *)
Lemma cf_loop_traced_fst (n : nat) (rem : float) (acc : list Z) :
  cf_loop n rem acc
  = let* r := cf_loop_traced n rem acc in Ok (fst r).
Proof.
  revert rem acc; induction n as [|n IH]; intros rem acc; simpl.
  - reflexivity.
  - destruct (Float64.floor rem) as [a|]; [|reflexivity]. simpl.
    destruct (Float64.of_int a) as [fa|]; [|reflexivity]. simpl.
    destruct (Float64.isclose _ _); [reflexivity|].
    destruct (Float64.div _ _) as [rem'|]; [|reflexivity]. simpl.
    apply IH.
Qed.

(** The loop appends at least zero and at most [n] coefficients, and
    fewer than [n] only when it leaves through [break]. *)
Lemma cf_loop_traced_length (n : nat) (rem : float) (acc l : list Z)
  (stopped : bool) :
  cf_loop_traced n rem acc = Ok (l, stopped) ->
  (length l <= length acc + n)%nat /\
  (stopped = false -> length l = (length acc + n)%nat) /\
  (stopped = true -> (length acc < length l)%nat).
Proof.
  revert rem acc; induction n as [|n IH]; intros rem acc; simpl.
  - intros [= <- <-]. repeat split; intros; try lia; try discriminate.
  - destruct (Float64.floor rem) as [a|]; [|discriminate]. simpl.
    destruct (Float64.of_int a) as [fa|]; [|discriminate]. simpl.
    destruct (Float64.isclose _ _).
    + intros [= <- <-]. rewrite length_app. simpl.
      repeat split; intros; try lia; try discriminate.
    + destruct (Float64.div _ _) as [rem'|]; [|discriminate]. simpl.
      intros H. apply IH in H. rewrite length_app in H. simpl in H.
      destruct H as (H1 & H2 & H3). repeat split; intros; try lia.
      * rewrite H2 by assumption. lia.
      * specialize (H3 ltac:(assumption)). lia.
Qed.

Lemma get_continued_fraction_length (x : number) (max_terms : Z)
  (cf : list Z) :
  get_continued_fraction x max_terms = Ok cf ->
  (length cf <= Z.to_nat max_terms)%nat.
Proof.
  unfold get_continued_fraction.
  destruct (to_float x) as [rem|]; [|discriminate]. simpl.
  rewrite cf_loop_traced_fst.
  destruct (cf_loop_traced _ _ _) as [[l b]|] eqn:H; [|discriminate].
  simpl. intros [= <-].
  apply cf_loop_traced_length in H. simpl in H. lia.
Qed.

(** With at least one term allowed, the list is not empty. *)
Lemma get_continued_fraction_nonempty (x : number) (max_terms : Z)
  (cf : list Z) :
  1 <= max_terms ->
  get_continued_fraction x max_terms = Ok cf ->
  cf <> [].
Proof.
  unfold get_continued_fraction. intros Hn.
  destruct (to_float x) as [rem|]; [|discriminate]. simpl.
  rewrite cf_loop_traced_fst.
  destruct (cf_loop_traced _ _ _) as [[l b]|] eqn:H; [|discriminate].
  simpl. intros [= <-].
  apply cf_loop_traced_length in H. simpl in H.
  destruct H as (_ & H2 & H3).
  destruct b; [specialize (H3 eq_refl)|specialize (H2 eq_refl)];
    destruct l; simpl in *; try discriminate; lia.
Qed.

(** X11.  On a double without a fractional part the loop leaves in its
    first turn: the list holds the value alone. *)
Lemma get_continued_fraction_integral (x : float) (max_terms : Z) :
  valid_binary Float64.prec Float64.emax x = true ->
  integral x ->
  1 <= max_terms ->
  exists a,
    Float64.floor x = Ok a /\
    get_continued_fraction (PyFloat x) max_terms = Ok [a].
Proof.
  intros Hvalid Hint Hn. unfold get_continued_fraction. simpl.
  destruct (Z.to_nat max_terms) as [|n] eqn:Hnat; [lia|]. clear Hnat.
  destruct x as [s0| | |s m e]; simpl in Hint; try contradiction.
  - exists 0. split; [reflexivity|]. now destruct s0.
  - pose proof (valid_binary_mantissa53 _ Hvalid) as Hm53. simpl in Hm53.
    assert (He : e <= 971).
    { simpl in Hvalid. apply andb_prop in Hvalid as [_ H].
      now apply Z.leb_le in H. }
    destruct (Float64.floor (S754_finite s m e)) as [a|] eqn:Hfl;
      [|discriminate].
    exists a. split; [reflexivity|].
    assert (Hof : exists fa, Float64.of_int a = Ok fa).
    { destruct (Z.eq_dec a 0) as [->|Ha]; [now eexists|].
      destruct (floor_finite s m e a Hm53 Hfl Ha)
        as [_ (m0 & k & Hm0 & Hk & Hke & Habs)].
      apply of_int_returns. exists m0, k. repeat split; try lia. }
    destruct Hof as [fa Hof].
    pose proof (fractional_part_integral s m e a fa Hm53 Hint Hfl Hof)
      as Hsub.
    cbn [cf_loop]. rewrite Hfl. cbn [bind]. rewrite Hof. cbn [bind].
    rewrite Hsub. reflexivity.
Qed.

End Generator.

(** * Properties of the Search Controller *)

(** Case analysis on the first computation of a sequence of [let*]. *)
Ltac bind_inv H :=
  match type of H with
  | context [bind ?m _] =>
      let E := fresh "E" in
      destruct m eqn:E; simpl in H; [|discriminate H]
  end.

Section ControllerFacts.

Variable float_pow : float -> float -> result number.
Variable complex_abs : float -> float -> result float.

Local Abbreviation check := (check_bound float_pow complex_abs).

(** What a checked bound has computed: the last convergent of the
    coefficients generated at that bound, its approximation of pi, the
    error, and the comparison with the tolerance. *)
Lemma check_bound_checked (k : Z) (tolerance target : number) (T : Z)
  (p q : Z) (pi_approx : number) (error : float) (accurate : bool) :
  check k tolerance target T = Ok (Checked p q pi_approx error accurate) ->
  exists cf ratio exponent,
    get_continued_fraction target T = Ok cf /\
    last (get_convergents cf) = Some (p, q) /\
    q <> 0 /\
    Float64.int_true_div p q = Ok ratio /\
    Float64.int_true_div 1 k = Ok exponent /\
    float_pow ratio exponent = Ok pi_approx /\
    abs_diff complex_abs pi_approx Float64.pi = Ok error /\
    lt_number error tolerance = Ok accurate.
Proof.
  unfold check_bound, list_get_convergents, last_item. intros H.
  bind_inv H.
  destruct (last (get_convergents a)) as [[p0 q0]|] eqn:Hlast;
    simpl in H; [|discriminate].
  destruct (q0 =? 0) eqn:Hq; [discriminate|].
  apply Z.eqb_neq in Hq.
  do 5 bind_inv H. injection H as -> -> -> -> ->.
  eexists _, _, _. repeat split; eauto.
Qed.

Lemma check_bound_degenerate (k : Z) (tolerance target : number) (T : Z) :
  check k tolerance target T = Ok Degenerate ->
  exists cf p,
    get_continued_fraction target T = Ok cf /\
    last (get_convergents cf) = Some (p, 0).
Proof.
  unfold check_bound, list_get_convergents, last_item. intros H.
  bind_inv H.
  destruct (last (get_convergents a)) as [[p0 q0]|] eqn:Hlast;
    simpl in H; [|discriminate].
  destruct (q0 =? 0) eqn:Hq.
  - apply Z.eqb_eq in Hq. subst q0. now exists a, p0.
  - do 5 bind_inv H. discriminate.
Qed.

(** On a binary64 target the denominator of the last convergent is never
    zero: the branch [if q == 0] is not taken. *)
Lemma check_bound_not_degenerate (k : Z) (tolerance target : number)
  (T : Z) :
  binary64_number target ->
  check k tolerance target T <> Ok Degenerate.
Proof.
  intros Htarget H.
  destruct (check_bound_degenerate _ _ _ _ H) as (cf & p & Hcf & Hlast).
  pose proof (get_continued_fraction_normal_form _ _ _ Htarget Hcf) as Hnf.
  pose proof (get_convergents_positive cf Hnf) as Hpos.
  apply last_Some_elem_of in Hlast.
  rewrite Forall_forall in Hpos. specialize (Hpos _ Hlast).
  simpl in Hpos. lia.
Qed.

Lemma target_binary64 (k : Z) (target : number) :
  returns_binary64 float_pow ->
  bind (Float64.of_int k) (float_pow Float64.pi) = Ok target ->
  binary64_number target.
Proof.
  intros Hpow H. bind_inv H.
  destruct target as [n|f|re im]; simpl; trivial. eapply Hpow; eauto.
Qed.

Lemma found_dict_lookup (k D p q : Z) (pi_approx : number) (error : float) :
  let d := found_dict k D p q pi_approx error in
  d !! "power_k" = Some (Num (PyInt k)) /\
  d !! "digits_D" = Some (Num (PyInt D)) /\
  d !! "convergent_p" = Some (Num (PyInt p)) /\
  d !! "convergent_q" = Some (Num (PyInt q)) /\
  d !! "pi_approximation" = Some (Num pi_approx) /\
  d !! "error" = Some (Num (PyFloat error)).
Proof. repeat split; reflexivity. Qed.

Lemma not_found_dict_lookup (key : string) :
  not_found_dict !! key
  = if decide (key = "error")
    then Some (Str "Could not find a suitable approximation.")
    else None.
Proof.
  unfold not_found_dict. destruct (decide (key = "error")) as [->|Hne].
  - apply lookup_insert_eq.
  - rewrite lookup_insert_ne by congruence. apply lookup_empty.
Qed.

Lemma found_dict_is_found (k D p q : Z) (pi_approx : number)
  (error : float) :
  is_found (found_dict k D p q pi_approx error).
Proof. eexists. reflexivity. Qed.

Lemma not_found_dict_not_found : ~ is_found not_found_dict.
Proof. intros [v Hv]. discriminate. Qed.

(** What the loop has seen when it returns a dictionary. *)
Lemma search_returns (k D : Z) (tolerance target : number)
  (fuel : nat) (T : Z) (d : gmap string pyval) :
  search float_pow complex_abs k D tolerance target fuel T = Some (Ok d) ->
  exists T',
    T <= T' /\
    (forall T'', T <= T'' < T' ->
       check k tolerance target T'' = Ok Degenerate \/
       exists p q pi_approx error,
         check k tolerance target T''
         = Ok (Checked p q pi_approx error false)) /\
    ((exists p q pi_approx error,
        check k tolerance target T'
        = Ok (Checked p q pi_approx error true) /\
        d = found_dict k D p q pi_approx error /\
        (T' = T \/ T' <= 50 \/
         check k tolerance target (T' - 1) = Ok Degenerate)) \/
     (50 < T' /\ d = not_found_dict)).
Proof.
  revert T; induction fuel as [|fuel IH]; intros T; simpl; [discriminate|].
  destruct (check k tolerance target T) as [[|p q pi_approx error [|]]|e]
    eqn:Hc.
  - intros H. destruct (IH _ H) as (T' & HT & Hbefore & Hat).
    exists T'. split; [lia|]. split.
    + intros T'' HT''. destruct (Z.eq_dec T'' T) as [->|]; [now left|].
      apply Hbefore. lia.
    + destruct Hat as [(p & q & a & e & H1 & H2 & [->|[H3|H3]])|Hat];
        [left|left|left|now right]; exists p, q, a, e;
        repeat split; try assumption.
      * right. right. now replace (T + 1 - 1) with T by lia.
      * now right; left.
      * now right; right.
  - intros [= <-]. exists T. split; [lia|]. split; [intros; lia|].
    left. exists p, q, pi_approx, error. auto.
  - destruct (50 <? T + 1) eqn:Hlim.
    + intros [= <-]. apply Z.ltb_lt in Hlim.
      exists (T + 1). split; [lia|]. split; [|right; split; [lia|reflexivity]].
      intros T'' HT''. replace T'' with T by lia. right. eauto.
    + intros H. apply Z.ltb_ge in Hlim.
      destruct (IH _ H) as (T' & HT & Hbefore & Hat).
      exists T'. split; [lia|]. split.
      * intros T'' HT''.
        destruct (Z.eq_dec T'' T) as [->|]; [right; eauto|].
        apply Hbefore. lia.
      * destruct Hat as [(p' & q' & a & e & H1 & H2 & [->|[H3|H3]])|Hat];
          [left|left|left|now right]; exists p', q', a, e;
          repeat split; try assumption.
        -- right. left. lia.
        -- now right; left.
        -- now right; right.
  - discriminate.
Qed.



(** The results of the whole function are those of the loop started at
    the bound 2. *)
Lemma find_returns (fuel : nat) (k D : Z) (d : gmap string pyval) :
  find_pi_approximation_to_d_digits float_pow complex_abs fuel k D
  = Some (Ok d) ->
  exists tolerance target,
    int_pow float_pow 10 (- D) = Ok tolerance /\
    bind (Float64.of_int k) (float_pow Float64.pi) = Ok target /\
    search float_pow complex_abs k D tolerance target fuel 2 = Some (Ok d).
Proof.
  unfold find_pi_approximation_to_d_digits.
  destruct (int_pow float_pow 10 (- D)) as [tolerance|]; [|discriminate].
  destruct (bind _ _) as [target|]; [|discriminate].
  intros H. now exists tolerance, target.
Qed.

End ControllerFacts.

(** * The reference runtime returns binary64 values *)

Section Reference.

Lemma binary_normalize_mantissa53 (m e : Z) (szero : bool) :
  mantissa53 (binary_normalize Float64.prec Float64.emax m e szero).
Proof.
  destruct m as [|M|M]; simpl; trivial; unfold binary_round;
    destruct (shl_align _ _ _) as [mz ez]; now apply round_mantissa53.
Qed.

Lemma pow_integral_binary64 : returns_binary64 pow_integral.
Proof.
  intros x y r. unfold pow_integral.
  destruct (Float64.floor y) as [n|]; [|now intros [= <-]].
  destruct (negb _); [now intros [= <-]|].
  destruct (n =? 0); [intros [= <-]; reflexivity|].
  destruct x as [s| | |s m e]; try (now intros [= <-]).
  - destruct (0 <? n); [now intros [= <-]|discriminate].
  - set (r0 := if 0 <? n then _ else _).
    assert (H0 : mantissa53 r0).
    { unfold r0. destruct (0 <? n).
      - apply binary_normalize_mantissa53.
      - destruct (SFdiv_core_binary _ _ _ _ _ _) as [[mz ez] lz] eqn:Hd.
        apply round_mantissa53.
        unfold SFdiv_core_binary in Hd.
        destruct (Z.div_eucl _ _) as [q r1] eqn:Hq in Hd.
        injection Hd as <- _ _.
        match type of Hq with
        | Z.div_eucl ?a ?b = _ =>
            assert (Hdiv : q = a / b) by (unfold Z.div; now rewrite Hq);
            assert (Ha : 0 <= a);
            [|assert (Hb : 0 < b);
               [|rewrite Hdiv; apply Z.div_pos; assumption]]
        end.
        + destruct (_ - _) as [|sh|sh]; try lia.
          rewrite Z.shiftl_mul_pow2 by lia.
          pose proof (pow2_pos (Zpos sh)). lia.
        + apply Z.pow_pos_nonneg; lia. }
    destruct r0 as [s0|s0| |s0 mr er]; try discriminate;
      intros [= <-]; simpl; trivial.
Qed.




End Reference.

(** * The claims on the Convergent Builder *)

(** C1.  [get_convergents] yields exactly one pair per coefficient, in input
    order: the list of pairs has the length of the coefficient list (so the
    empty list yields nothing), the numerators and denominators start from
    the seeds [p(-2) = 0], [p(-1) = 1], [q(-2) = 1], [q(-1) = 0], and the
    pair at position [n] is [(a * p(n-1) + p(n-2), a * q(n-1) + q(n-2))] for
    the coefficient [a] at position [n]. *)
Theorem get_convergents_recurrence (cf : list Z) :
  get_convergents [] = [] /\
  length (get_convergents cf) = length cf /\
  numerators cf = 0 :: 1 :: map fst (get_convergents cf) /\
  denominators cf = 1 :: 0 :: map snd (get_convergents cf) /\
  forall n : nat,
    get_convergents cf !! n
    = match cf !! n, numerators cf !! n, numerators cf !! S n,
            denominators cf !! n, denominators cf !! S n with
      | Some a, Some p2, Some p1, Some q2, Some q1 =>
          Some (a * p1 + p2, a * q1 + q2)
      | _, _, _, _, _ => None
      end.
Proof.
  split; [reflexivity|]. split; [apply convergents_from_length|].
  split; [reflexivity|]. split; [reflexivity|].
  intros n. destruct (cf !! n) as [a|] eqn:Hn.
  - destruct (convergents_from_recurrence seed cf n a Hn)
      as (p2 & p1 & q2 & q1 & H1 & H2 & H3 & H4 & H5).
    unfold numerators, denominators. rewrite H1, H2, H3, H4. exact H5.
  - apply lookup_ge_None. unfold get_convergents.
    rewrite convergents_from_length. now apply lookup_ge_None.
Qed.

(** C3.  Two consecutive pairs [(p, q)] and [(p', q')] yielded by
    [get_convergents] satisfy [p' * q - p * q' = 1] or [= -1]; this holds
    for every coefficient list, in normal form or not. *)
Theorem determinant_identity (cf : list Z) (i : nat) (p q p' q' : Z) :
  get_convergents cf !! i = Some (p, q) ->
  get_convergents cf !! S i = Some (p', q') ->
  p' * q - p * q' = 1 \/ p' * q - p * q' = -1.
Proof.
  intros Hi Hi'.
  destruct (convergents_from_det seed cf i p q p' q' Hi Hi') as [H|H];
    rewrite H; [left|right]; reflexivity.
Qed.

Lemma determinant_identity_witness :
  333 * 7 - 22 * 106 = 1 \/ 333 * 7 - 22 * 106 = -1.
Proof.
  apply (determinant_identity [3; 7; 15; 1] 1%nat 22 7 333 106);
    reflexivity.
Defined.

(** C7.  On a coefficient list in normal form the denominators are strictly
    increasing from position 1 on: [q_i < q_(i+1)] for every [i >= 1]. *)
Theorem denominators_strictly_increasing (cf : list Z) (i : nat)
  (p q p' q' : Z) :
  normal_form cf ->
  (1 <= i)%nat ->
  get_convergents cf !! i = Some (p, q) ->
  get_convergents cf !! S i = Some (p', q') ->
  q < q'.
Proof.
  intros Hnf Hi Hq Hq'.
  pose proof (get_convergents_positive cf Hnf) as Hpos.
  destruct i as [|j]; [lia|].
  assert (Hlen : (S (S j) < length cf)%nat).
  { apply lookup_lt_Some in Hq'. unfold get_convergents in Hq'.
    now rewrite convergents_from_length in Hq'. }
  destruct (lookup_lt_is_Some_2 cf (S (S j)) Hlen) as [a Ha].
  assert (Ha1 : 1 <= a).
  { unfold normal_form in Hnf. destruct cf as [|a0 rest]; [discriminate|].
    simpl in Hnf, Ha. exact (Forall_lookup_1 _ _ _ _ Hnf Ha). }
  destruct (convergents_from_recurrence seed cf (S (S j)) a Ha)
    as (p2 & p1 & q2 & q1 & _ & _ & H3 & H4 & H5).
  fold (get_convergents cf) in H5. rewrite Hq' in H5.
  injection H5 as -> ->.
  fold (denominators cf) in H3, H4.
  destruct (denominators_lookup cf j q2 H3) as [pa Hqa].
  destruct (denominators_lookup cf (S j) q1 H4) as [pb Hqb].
  rewrite Hq in Hqb. injection Hqb as _ <-.
  pose proof (Forall_lookup_1 _ _ _ _ Hpos Hqa) as Hq2.
  pose proof (Forall_lookup_1 _ _ _ _ Hpos Hq) as Hq1.
  simpl in Hq2, Hq1. nia.
Qed.

Lemma denominators_strictly_increasing_witness : 7 < 106.
Proof.
  apply (denominators_strictly_increasing [3; 7; 15; 1] 1%nat 22 7 333 106).
  - repeat constructor; lia.
  - lia.
  - reflexivity.
  - reflexivity.
Defined.

(** C4, as the code has it.  [get_convergents] validates nothing and raises
    nothing: a coefficient [a <= 0] after the first position is processed by
    the recurrence like any other, and the pair computed from it is
    yielded. *)
Theorem get_convergents_accepts_non_positive (cf : list Z) (i : nat) (a : Z) :
  (1 <= i)%nat ->
  cf !! i = Some a ->
  a <= 0 ->
  exists out p2 p1 q2 q1,
    list_get_convergents cf = Ok out /\
    length out = length cf /\
    numerators cf !! i = Some p2 /\
    numerators cf !! S i = Some p1 /\
    denominators cf !! i = Some q2 /\
    denominators cf !! S i = Some q1 /\
    out !! i = Some (a * p1 + p2, a * q1 + q2).
Proof.
  intros _ Hi _.
  destruct (convergents_from_recurrence seed cf i a Hi)
    as (p2 & p1 & q2 & q1 & H1 & H2 & H3 & H4 & H5).
  exists (get_convergents cf), p2, p1, q2, q1.
  split; [reflexivity|]. split; [apply convergents_from_length|].
  repeat split; assumption.
Qed.

Lemma get_convergents_accepts_non_positive_witness :
  exists out p2 p1 q2 q1,
    list_get_convergents [3; 0] = Ok out /\
    length out = length [3; 0] /\
    numerators [3; 0] !! 1%nat = Some p2 /\
    numerators [3; 0] !! 2%nat = Some p1 /\
    denominators [3; 0] !! 1%nat = Some q2 /\
    denominators [3; 0] !! 2%nat = Some q1 /\
    out !! 1%nat = Some (0 * p1 + p2, 0 * q1 + q2).
Proof.
  apply (get_convergents_accepts_non_positive [3; 0] 1%nat 0);
    [lia | reflexivity | lia].
Defined.

(** C4, as stated, fails: on [[3; 0]] nothing is raised and the pair
    [(1, 0)], computed from the coefficient 0, is yielded. *)
Lemma get_convergents_no_invalid_coefficient :
  ([3; 0] : list Z) !! 1%nat = Some 0 /\
  list_get_convergents [3; 0] = Ok [(3, 1); (1, 0)] /\
  ~ (exists e, list_get_convergents [3; 0] = Raised e).
Proof.
  split; [reflexivity|]. split; [reflexivity|].
  intros [e He]. discriminate.
Qed.

(** C8, as the code has it.  On a coefficient list in normal form every pair
    yielded by [get_convergents] has a denominator [q >= 1]; the lists that
    [get_continued_fraction] produces are in normal form, so that the
    controller never takes its branch [if q == 0]. *)
Theorem denominators_positive_in_normal_form :
  (forall cf : list Z,
      normal_form cf ->
      Forall (fun pq => 1 <= snd pq) (get_convergents cf)) /\
  (forall float_pow complex_abs (k : Z) (tolerance target : number) (T : Z),
      returns_binary64 float_pow ->
      bind (Float64.of_int k) (float_pow Float64.pi) = Ok target ->
      check_bound float_pow complex_abs k tolerance target T
      <> Ok Degenerate).
Proof.
  split.
  - exact get_convergents_positive.
  - intros float_pow complex_abs k tolerance target T Hpow Htarget.
    apply check_bound_not_degenerate.
    exact (target_binary64 float_pow k target Hpow Htarget).
Qed.

Lemma denominators_positive_in_normal_form_witness :
  Forall (fun pq => 1 <= snd pq) (get_convergents [3; 7; 15; 1]) /\
  check_bound pow_integral complex_abs_real 1
    (PyFloat (S754_finite false 7205759403792794 (-56)))
    (PyFloat Float64.pi) 2
  <> Ok Degenerate.
Proof.
  split.
  - apply (proj1 denominators_positive_in_normal_form).
    repeat constructor; lia.
  - apply (proj2 denominators_positive_in_normal_form).
    + exact pow_integral_binary64.
    + reflexivity.
Defined.

(** C8, as stated, fails: on the list [[3; 0]] the pair [(1, 0)] is
    yielded. *)
Lemma get_convergents_zero_denominator :
  get_convergents [3; 0] = [(3, 1); (1, 0)] /\
  ~ Forall (fun pq => 1 <= snd pq) (get_convergents [3; 0]).
Proof.
  split; [reflexivity|]. intros H.
  apply (Forall_lookup_1 _ _ 1%nat (1, 0)) in H; [simpl in H; lia|].
  reflexivity.
Qed.

(** * The claims on the Coefficient Generator *)

(** C5, as the code has it.  [get_continued_fraction] returns the
    coefficient list alone.  The loop leaves early when the fractional part
    compares equal to zero; the list is then the one of the traced loop, it
    has at most [max_terms] elements, and only a list shorter than
    [max_terms] tells the caller that the loop left early. *)
Theorem get_continued_fraction_returns_list_only (x : number)
  (max_terms : Z) (l : list Z) (stopped : bool) :
  get_continued_fraction_traced x max_terms = Ok (l, stopped) ->
  get_continued_fraction x max_terms = Ok l /\
  (length l <= Z.to_nat max_terms)%nat /\
  (stopped = false -> length l = Z.to_nat max_terms) /\
  ((length l < Z.to_nat max_terms)%nat -> stopped = true).
Proof.
  unfold get_continued_fraction_traced, get_continued_fraction.
  destruct (to_float x) as [rem|]; [|discriminate]. simpl. intros H.
  rewrite cf_loop_traced_fst, H. simpl.
  apply cf_loop_traced_length in H. simpl in H.
  destruct H as (H1 & H2 & _).
  repeat split; try assumption.
  destruct stopped; [reflexivity|]. specialize (H2 eq_refl). lia.
Qed.

Lemma get_continued_fraction_returns_list_only_witness :
  get_continued_fraction
    (PyFloat (S754_finite false 4503599627370496 (-53))) 2 = Ok [0; 2] /\
  (length [0; 2] <= Z.to_nat 2)%nat /\
  (true = false -> length [0; 2] = Z.to_nat 2) /\
  ((length [0; 2] < Z.to_nat 2)%nat -> true = true).
Proof.
  apply (get_continued_fraction_returns_list_only
           (PyFloat (S754_finite false 4503599627370496 (-53))) 2 [0; 2] true).
  reflexivity.
Defined.

(** C5, as stated, fails: no function of the returned value tells whether
    the loop left early.  For 0.5 the loop leaves through [break] after the
    second coefficient, for the double nearest 3/7 it uses up both turns,
    and both calls return [[0; 2]]. *)
Lemma early_stop_not_observable :
  ~ exists observe : result (list Z) -> bool,
      forall (x : number) (max_terms : Z) (l : list Z) (stopped : bool),
        get_continued_fraction_traced x max_terms = Ok (l, stopped) ->
        observe (get_continued_fraction x max_terms) = stopped.
Proof.
  intros [observe H].
  pose proof (H (PyFloat (S754_finite false 4503599627370496 (-53))) 2
                [0; 2] true eq_refl) as H1.
  pose proof (H (PyFloat (S754_finite false 7720456504063707 (-54))) 2
                [0; 2] false eq_refl) as H2.
  change (observe (Ok [0; 2]) = true) in H1.
  change (observe (Ok [0; 2]) = false) in H2.
  congruence.
Qed.

(** C9, where the code breaks it.  For the smallest positive double,
    2^-1074, and [max_terms = 2]: the fractional part is the value itself,
    [math.isclose] with its default tolerances does not take it for zero,
    its reciprocal overflows to infinity, and [math.floor] raises on the
    second turn. *)
Theorem get_continued_fraction_tiny_raises :
  Float64.floor (S754_finite false 1 (-1074)) = Ok 0 /\
  Float64.isclose (S754_finite false 1 (-1074)) Float64.zero = false /\
  Float64.div Float64.one (S754_finite false 1 (-1074))
  = Ok (S754_infinity false) /\
  get_continued_fraction (PyFloat (S754_finite false 1 (-1074))) 2
  = Raised OverflowError.
Proof. repeat split; vm_compute; reflexivity. Qed.

(** * The claims on the Search Controller *)

(** C2.  When [find_pi_approximation_to_d_digits] returns a result with a
    convergent, that convergent [(p, q)] is the last one of the coefficients
    that [get_continued_fraction] gives for [pi ** k] at a term bound
    [T >= 2], the fields [pi_approximation] and [error] are
    [(p / q) ** (1 / k)] and [abs(pi_approximation - pi)], the error is
    below [10 ** (-D)], and at every bound from 2 to [T - 1] the one pair
    that was examined, the last convergent of that bound, was degenerate or
    not accurate enough. *)
Theorem found_is_last_convergent_of_first_accurate_bound
  (float_pow : float -> float -> result number)
  (complex_abs : float -> float -> result float)
  (fuel : nat) (k D : Z) (d : gmap string pyval) :
  find_pi_approximation_to_d_digits float_pow complex_abs fuel k D
  = Some (Ok d) ->
  is_found d ->
  exists tolerance target T cf p q ratio exponent pi_approx error,
    int_pow float_pow 10 (- D) = Ok tolerance /\
    bind (Float64.of_int k) (float_pow Float64.pi) = Ok target /\
    2 <= T /\
    get_continued_fraction target T = Ok cf /\
    last (get_convergents cf) = Some (p, q) /\
    q <> 0 /\
    Float64.int_true_div p q = Ok ratio /\
    Float64.int_true_div 1 k = Ok exponent /\
    float_pow ratio exponent = Ok pi_approx /\
    abs_diff complex_abs pi_approx Float64.pi = Ok error /\
    lt_number error tolerance = Ok true /\
    d = found_dict k D p q pi_approx error /\
    forall T', 2 <= T' < T ->
      exists cf' p' q',
        get_continued_fraction target T' = Ok cf' /\
        last (get_convergents cf') = Some (p', q') /\
        (q' = 0 \/
         exists ratio' pi_approx' error',
           Float64.int_true_div p' q' = Ok ratio' /\
           float_pow ratio' exponent = Ok pi_approx' /\
           abs_diff complex_abs pi_approx' Float64.pi = Ok error' /\
           lt_number error' tolerance = Ok false).
Proof.
  intros Hfind Hfound.
  destruct (find_returns _ _ _ _ _ _ Hfind)
    as (tolerance & target & Htol & Htarget & Hsearch).
  destruct (search_returns _ _ _ _ _ _ _ _ _ Hsearch)
    as (T & HT & Hbefore
        & [(p & q & pi_approx & error & Hc & -> & _)|[_ ->]]).
  - destruct (check_bound_checked _ _ _ _ _ _ _ _ _ _ _ Hc)
      as (cf & ratio & exponent & H1 & H2 & H3 & H4 & H5 & H6 & H7 & H8).
    exists tolerance, target, T, cf, p, q, ratio, exponent, pi_approx, error.
    repeat (split; [assumption || reflexivity|]).
    intros T' HT'.
    destruct (Hbefore T' HT') as [Hd|(p' & q' & a' & e' & Hc')].
    + destruct (check_bound_degenerate _ _ _ _ _ _ Hd) as (cf' & p' & ? & ?).
      exists cf', p', 0. auto.
    + destruct (check_bound_checked _ _ _ _ _ _ _ _ _ _ _ Hc')
        as (cf' & ratio' & exponent' & G1 & G2 & G3 & G4 & G5 & G6 & G7 & G8).
      exists cf', p', q'. split; [assumption|]. split; [assumption|].
      right. exists ratio', a', e'.
      assert (exponent' = exponent) as -> by congruence. auto.
  - now apply not_found_dict_not_found in Hfound.
Qed.

(** C10.  Every dictionary that [find_pi_approximation_to_d_digits] returns
    has the key ["error"].  In a result with a convergent it holds the
    float [abs(pi_approximation - pi)], next to the convergent fields; in
    the other result it holds the message and is the only key.  So the
    key ["convergent_p"], not the key ["error"], tells the two apart. *)
Theorem error_key_in_every_result
  (float_pow : float -> float -> result number)
  (complex_abs : float -> float -> result float)
  (fuel : nat) (k D : Z) (d : gmap string pyval) :
  find_pi_approximation_to_d_digits float_pow complex_abs fuel k D
  = Some (Ok d) ->
  is_Some (d !! "error") /\
  ((is_found d /\
    exists p q pi_approx error,
      abs_diff complex_abs pi_approx Float64.pi = Ok error /\
      d !! "error" = Some (Num (PyFloat error)) /\
      d !! "convergent_p" = Some (Num (PyInt p)) /\
      d !! "convergent_q" = Some (Num (PyInt q)) /\
      d !! "pi_approximation" = Some (Num pi_approx) /\
      d !! "power_k" = Some (Num (PyInt k)) /\
      d !! "digits_D" = Some (Num (PyInt D))) \/
   (~ is_found d /\
    d !! "error" = Some (Str "Could not find a suitable approximation.") /\
    forall key, key <> "error" -> d !! key = None)).
Proof.
  intros Hfind.
  destruct (find_returns _ _ _ _ _ _ Hfind)
    as (tolerance & target & _ & _ & Hsearch).
  destruct (search_returns _ _ _ _ _ _ _ _ _ Hsearch)
    as (T & _ & _ & [(p & q & pi_approx & error & Hc & -> & _)|[_ ->]]).
  - split; [eexists; reflexivity|]. left.
    split; [apply found_dict_is_found|].
    destruct (check_bound_checked _ _ _ _ _ _ _ _ _ _ _ Hc)
      as (cf & ratio & exponent & _ & _ & _ & _ & _ & _ & Herr & _).
    exists p, q, pi_approx, error. repeat split; try reflexivity.
    exact Herr.
  - split; [eexists; reflexivity|]. right.
    split; [exact not_found_dict_not_found|]. split; [reflexivity|].
    intros key Hkey. rewrite not_found_dict_lookup.
    destruct (decide (key = "error")); [contradiction|reflexivity].
Qed.


(** The run for [k = 1], [D = 1] on the reference runtime: the bound 2 gives
    the coefficients [[3; 7]] and the convergent 22/7, which is accepted. *)
Lemma found_is_last_convergent_of_first_accurate_bound_witness :
  exists tolerance target T cf p q ratio exponent pi_approx error,
    int_pow pow_integral 10 (- 1) = Ok tolerance /\
    bind (Float64.of_int 1) (pow_integral Float64.pi) = Ok target /\
    2 <= T /\
    get_continued_fraction target T = Ok cf /\
    last (get_convergents cf) = Some (p, q) /\
    q <> 0 /\
    Float64.int_true_div p q = Ok ratio /\
    Float64.int_true_div 1 1 = Ok exponent /\
    pow_integral ratio exponent = Ok pi_approx /\
    abs_diff complex_abs_real pi_approx Float64.pi = Ok error /\
    lt_number error tolerance = Ok true /\
    found_dict 1 1 22 7
      (PyFloat (S754_finite false 7077085128725065 (-51)))
      (S754_finite false 5831427474688000 (-62))
    = found_dict 1 1 p q pi_approx error /\
    forall T', 2 <= T' < T ->
      exists cf' p' q',
        get_continued_fraction target T' = Ok cf' /\
        last (get_convergents cf') = Some (p', q') /\
        (q' = 0 \/
         exists ratio' pi_approx' error',
           Float64.int_true_div p' q' = Ok ratio' /\
           pow_integral ratio' exponent = Ok pi_approx' /\
           abs_diff complex_abs_real pi_approx' Float64.pi = Ok error' /\
           lt_number error' tolerance = Ok false).
Proof.
  apply (found_is_last_convergent_of_first_accurate_bound
           pow_integral complex_abs_real 49 1 1).
  - vm_compute. reflexivity.
  - apply found_dict_is_found.
Defined.

Lemma error_key_in_every_result_witness :
  let d := found_dict 1 1 22 7
             (PyFloat (S754_finite false 7077085128725065 (-51)))
             (S754_finite false 5831427474688000 (-62)) in
  is_Some (d !! "error") /\
  ((is_found d /\
    exists p q pi_approx error,
      abs_diff complex_abs_real pi_approx Float64.pi = Ok error /\
      d !! "error" = Some (Num (PyFloat error)) /\
      d !! "convergent_p" = Some (Num (PyInt p)) /\
      d !! "convergent_q" = Some (Num (PyInt q)) /\
      d !! "pi_approximation" = Some (Num pi_approx) /\
      d !! "power_k" = Some (Num (PyInt 1)) /\
      d !! "digits_D" = Some (Num (PyInt 1))) \/
   (~ is_found d /\
    d !! "error" = Some (Str "Could not find a suitable approximation.") /\
    forall key, key <> "error" -> d !! key = None)).
Proof.
  apply (error_key_in_every_result pow_integral complex_abs_real 49 1 1).
  vm_compute. reflexivity.
Defined.



(** * Further properties of the Convergent Builder *)

Lemma convergents_from_take (st : RecurrenceState) (cf : list Z) (n : nat) :
  convergents_from st (take n cf) = take n (convergents_from st cf).
Proof.
  revert st n; induction cf as [|a rest IH]; intros st [|n]; simpl;
    try reflexivity.
  now rewrite IH.
Qed.

(** X1.  The generator is forward-only: the pairs yielded for the first
    [n] coefficients do not depend on the coefficients that follow. *)
Theorem get_convergents_take (cf more : list Z) (n : nat) :
  get_convergents (take n cf) = take n (get_convergents cf) /\
  get_convergents cf `prefix_of` get_convergents (cf ++ more).
Proof.
  split; [apply convergents_from_take|].
  exists (drop (length cf) (get_convergents (cf ++ more))).
  rewrite <- (take_drop (length cf) (get_convergents (cf ++ more))) at 1.
  f_equal. unfold get_convergents.
  rewrite <- convergents_from_take. now rewrite take_app_length.
Qed.

Lemma get_convergents_lookup_last (cf : list Z) (n : nat) (pq : Z * Z) :
  get_convergents cf !! n = Some pq ->
  last (get_convergents (take (S n) cf)) = Some pq.
Proof.
  intros H. unfold get_convergents in *.
  rewrite convergents_from_take, last_lookup.
  pose proof (lookup_lt_Some _ _ _ H) as Hlen.
  rewrite length_take, Nat.min_l by lia. simpl.
  now rewrite lookup_take_lt by lia.
Qed.

Lemma convergents_from_last (st : RecurrenceState) (cf : list Z) :
  cf <> [] ->
  last (convergents_from st cf)
  = Some (fst (cf_fraction cf) * p_prev1 st
          + snd (cf_fraction cf) * p_prev2 st,
          fst (cf_fraction cf) * q_prev1 st
          + snd (cf_fraction cf) * q_prev2 st).
Proof.
  revert st; induction cf as [|a rest IH]; intros st Hne; [contradiction|].
  destruct rest as [|b r].
  - simpl. do 2 f_equal; ring.
  - change (convergents_from st (a :: b :: r))
      with (fst (step st a) :: convergents_from (snd (step st a)) (b :: r)).
    change (convergents_from (snd (step st a)) (b :: r))
      with (fst (step (snd (step st a)) b)
            :: convergents_from (snd (step (snd (step st a)) b)) r).
    rewrite last_cons_cons.
    change (fst (step (snd (step st a)) b)
            :: convergents_from (snd (step (snd (step st a)) b)) r)
      with (convergents_from (snd (step st a)) (b :: r)).
    rewrite IH by discriminate.
    change (cf_fraction (a :: b :: r))
      with (let '(n, d) := cf_fraction (b :: r) in (a * n + d, n)).
    destruct (cf_fraction (b :: r)) as [n d]. simpl.
    do 2 f_equal; ring.
Qed.

Lemma convergent_is_fraction (cf : list Z) (n : nat) (pq : Z * Z) :
  get_convergents cf !! n = Some pq ->
  pq = cf_fraction (take (S n) cf).
Proof.
  intros H. pose proof (get_convergents_lookup_last cf n pq H) as Hlast.
  unfold get_convergents in Hlast.
  rewrite convergents_from_last in Hlast.
  - injection Hlast as <-. simpl.
    destruct (cf_fraction (take (S n) cf)) as [a d]. simpl. f_equal; ring.
  - apply lookup_lt_Some in H. unfold get_convergents in H.
    rewrite convergents_from_length in H.
    destruct cf; [simpl in H; lia|discriminate].
Qed.

(** X2.  The pair at position [n] is the continued fraction of the first
    [n + 1] coefficients, numerator and denominator as the evaluation from
    the innermost term leaves them; this holds for all integers. *)
Theorem get_convergents_fraction (cf : list Z) (n : nat) (pq : Z * Z) :
  get_convergents cf !! n = Some pq ->
  pq = cf_fraction (take (S n) cf).
Proof. apply convergent_is_fraction. Qed.

Lemma get_convergents_fraction_witness :
  (333, 106) = cf_fraction (take 3 [3; 7; 15; 1]).
Proof.
  apply (get_convergents_fraction [3; 7; 15; 1] 2%nat (333, 106)).
  reflexivity.
Defined.

Lemma inject_Z_nonzero (z : Z) : 1 <= z -> ~ (inject_Z z == 0)%Q.
Proof. intros Hz H. unfold Qeq in H. simpl in H. lia. Qed.

Lemma cf_value_fraction_positive (cf : list Z) :
  cf <> [] ->
  Forall (fun a => 1 <= a) cf ->
  1 <= fst (cf_fraction cf) /\ 1 <= snd (cf_fraction cf) /\
  (cf_value cf
   == inject_Z (fst (cf_fraction cf)) / inject_Z (snd (cf_fraction cf)))%Q.
Proof.
  induction cf as [|a rest IH]; intros Hne Hall; [contradiction|].
  inversion Hall as [|? ? Ha Hrest]; subst.
  destruct rest as [|b r].
  - simpl. repeat split; try lia.
    replace (a * 1 + 0) with a by ring. unfold Qdiv.
    change (/ inject_Z 1)%Q with 1%Q. now rewrite Qmult_1_r.
  - destruct (IH ltac:(discriminate) Hrest) as (Hn & Hd & Hv).
    change (cf_value (a :: b :: r))
      with (inject_Z a + / cf_value (b :: r))%Q.
    change (cf_fraction (a :: b :: r))
      with (let '(n, d) := cf_fraction (b :: r) in (a * n + d, n)).
    destruct (cf_fraction (b :: r)) as [n d]. simpl in *.
    repeat split; try nia.
    rewrite Hv, inject_Z_plus, inject_Z_mult.
    pose proof (inject_Z_nonzero n Hn). pose proof (inject_Z_nonzero d Hd).
    field. split; assumption.
Qed.

(** X3.  On coefficients in normal form the pair at position [n] is, as a
    rational number, the value [a0 + 1/(a1 + 1/(... + 1/an))]. *)
Theorem get_convergents_value (cf : list Z) (n : nat) (p q : Z) :
  normal_form cf ->
  get_convergents cf !! n = Some (p, q) ->
  (inject_Z p / inject_Z q == cf_value (take (S n) cf))%Q.
Proof.
  intros Hnf H. pose proof (convergent_is_fraction cf n (p, q) H) as Hpq.
  destruct cf as [|a rest]; [discriminate|].
  unfold normal_form in Hnf. simpl in Hnf.
  change (take (S n) (a :: rest)) with (a :: take n rest) in *.
  assert (Hrest : Forall (fun a => 1 <= a) (take n rest))
    by now apply Forall_take.
  destruct (take n rest) as [|b r] eqn:Ht.
  - simpl in Hpq. injection Hpq as -> ->. simpl.
    replace (a * 1 + 0) with a by ring. unfold Qdiv.
    change (/ inject_Z 1)%Q with 1%Q. now rewrite Qmult_1_r.
  - destruct (cf_value_fraction_positive (b :: r) ltac:(discriminate) Hrest)
      as (Hn & Hd & Hv).
    change (cf_value (a :: b :: r))
      with (inject_Z a + / cf_value (b :: r))%Q.
    change (cf_fraction (a :: b :: r))
      with (let '(n, d) := cf_fraction (b :: r) in (a * n + d, n)) in Hpq.
    destruct (cf_fraction (b :: r)) as [n0 d0]. simpl in *.
    injection Hpq as -> ->.
    rewrite Hv, inject_Z_plus, inject_Z_mult.
    pose proof (inject_Z_nonzero n0 Hn). pose proof (inject_Z_nonzero d0 Hd).
    field. split; assumption.
Qed.

Lemma get_convergents_value_witness :
  Qeq (Qdiv (inject_Z 333) (inject_Z 106)) (cf_value (take 3 [3; 7; 15; 1])).
Proof.
  apply (get_convergents_value [3; 7; 15; 1] 2%nat 333 106).
  - repeat constructor; lia.
  - reflexivity.
Defined.

Lemma convergents_from_bezout (st : RecurrenceState) (cf : list Z) (n : nat)
  (p q : Z) :
  convergents_from st cf !! n = Some (p, q) ->
  exists u v, u * p + v * q = det st.
Proof.
  revert st n; induction cf as [|a rest IH]; intros st n Hn; [discriminate|].
  destruct n as [|n].
  - simpl in Hn. injection Hn as <- <-.
    exists (- q_prev1 st), (p_prev1 st). unfold det. ring.
  - change (convergents_from (snd (step st a)) rest !! n = Some (p, q)) in Hn.
    destruct (IH _ _ Hn) as (u & v & Huv).
    exists (- u), (- v). rewrite det_step in Huv. lia.
Qed.

Lemma convergent_lowest_terms (cf : list Z) (n : nat) (p q : Z) :
  get_convergents cf !! n = Some (p, q) ->
  Z.gcd p q = 1.
Proof.
  intros H. destruct (convergents_from_bezout seed cf n p q H) as (u & v & Huv).
  change (det seed) with 1 in Huv.
  assert (Hdiv : (Z.gcd p q | 1)).
  { rewrite <- Huv. apply Z.divide_add_r; apply Z.divide_mul_r.
    - apply Z.gcd_divide_l.
    - apply Z.gcd_divide_r. }
  pose proof (Z.gcd_nonneg p q).
  apply Z.divide_1_r in Hdiv. lia.
Qed.

(** X4.  Every pair yielded by [get_convergents] is in lowest terms,
    whatever the coefficients. *)
Theorem get_convergents_coprime (cf : list Z) (n : nat) (p q : Z) :
  get_convergents cf !! n = Some (p, q) ->
  Z.gcd p q = 1.
Proof. apply convergent_lowest_terms. Qed.

Lemma get_convergents_coprime_witness : Z.gcd 333 106 = 1.
Proof.
  apply (get_convergents_coprime [3; 7; 15; 1] 2%nat 333 106). reflexivity.
Defined.

Lemma convergents_from_det_signed (st : RecurrenceState) (cf : list Z)
  (i : nat) (p q p' q' : Z) :
  convergents_from st cf !! i = Some (p, q) ->
  convergents_from st cf !! S i = Some (p', q') ->
  p' * q - p * q' = (-1) ^ Z.of_nat i * det st.
Proof.
  revert st i; induction cf as [|a rest IH]; intros st i Hi Hi';
    [discriminate|].
  destruct i as [|i].
  - destruct rest as [|b rest]; [discriminate|].
    simpl in Hi, Hi'. injection Hi as <- <-. injection Hi' as <- <-.
    change (Z.of_nat 0) with 0. rewrite Z.pow_0_r. unfold det. ring.
  - change (convergents_from (snd (step st a)) rest !! i = Some (p, q)) in Hi.
    change (convergents_from (snd (step st a)) rest !! S i = Some (p', q'))
      in Hi'.
    rewrite (IH _ _ Hi Hi'), det_step, Nat2Z.inj_succ, Z.pow_succ_r by lia.
    ring.
Qed.

(** X5.  The sign of the determinant alternates: for the pairs at
    positions [i] and [i + 1] it is [(-1)^i]. *)
Theorem determinant_alternates (cf : list Z) (i : nat) (p q p' q' : Z) :
  get_convergents cf !! i = Some (p, q) ->
  get_convergents cf !! S i = Some (p', q') ->
  p' * q - p * q' = (-1) ^ Z.of_nat i.
Proof.
  intros Hi Hi'.
  rewrite (convergents_from_det_signed seed cf i p q p' q' Hi Hi').
  change (det seed) with 1. ring.
Qed.

Lemma determinant_alternates_witness :
  333 * 7 - 22 * 106 = (-1) ^ Z.of_nat 1.
Proof.
  apply (determinant_alternates [3; 7; 15; 1] 1%nat 22 7 333 106);
    reflexivity.
Defined.

(** X17.  On coefficients in normal form two consecutive convergents lie
    on alternating sides of each other at the distance [1 / (q * q')]: the
    difference of the fractions at positions [i + 1] and [i] is
    [(-1)^i / (q * q')]. *)
Theorem consecutive_convergents_distance (cf : list Z) (i : nat)
  (p q p' q' : Z) :
  normal_form cf ->
  get_convergents cf !! i = Some (p, q) ->
  get_convergents cf !! S i = Some (p', q') ->
  (inject_Z p' / inject_Z q' - inject_Z p / inject_Z q
   == inject_Z ((-1) ^ Z.of_nat i) / inject_Z (q * q'))%Q.
Proof.
  intros Hnf Hi Hi'.
  pose proof (get_convergents_positive cf Hnf) as Hpos.
  pose proof (Forall_lookup_1 _ _ _ _ Hpos Hi) as Hq.
  pose proof (Forall_lookup_1 _ _ _ _ Hpos Hi') as Hq'.
  simpl in Hq, Hq'.
  pose proof (convergents_from_det_signed seed cf i p q p' q' Hi Hi')
    as Hdet.
  change (det seed) with 1 in Hdet. rewrite Z.mul_1_r in Hdet.
  rewrite <- Hdet.
  rewrite inject_Z_mult. unfold Zminus.
  rewrite inject_Z_plus, inject_Z_opp, !inject_Z_mult.
  pose proof (inject_Z_nonzero q Hq). pose proof (inject_Z_nonzero q' Hq').
  field. split; assumption.
Qed.

Lemma consecutive_convergents_distance_witness :
  Qeq (Qminus (Qdiv (inject_Z 333) (inject_Z 106))
         (Qdiv (inject_Z 22) (inject_Z 7)))
    (Qdiv (inject_Z ((-1) ^ Z.of_nat 1)) (inject_Z (7 * 106))).
Proof.
  apply (consecutive_convergents_distance [3; 7; 15; 1] 1%nat 22 7 333 106).
  - unfold normal_form. simpl. repeat constructor; lia.
  - reflexivity.
  - reflexivity.
Defined.

(** * Further properties of the Coefficient Generator *)

Lemma cf_loop_S (n : nat) (rem : float) (acc : list Z) :
  cf_loop (S n) rem acc
  = let* a := Float64.floor rem in
    let* fa := Float64.of_int a in
    if Float64.isclose (Float64.sub rem fa) Float64.zero
    then Ok (acc ++ [a])
    else
      let* remainder := Float64.div Float64.one (Float64.sub rem fa) in
      cf_loop n remainder (acc ++ [a]).
Proof. reflexivity. Qed.

Lemma cf_loop_extends (n : nat) (rem : float) (acc l : list Z) :
  cf_loop n rem acc = Ok l -> exists l', l = acc ++ l'.
Proof.
  revert rem acc; induction n as [|n IH]; intros rem acc.
  - intros [= <-]. exists []. now rewrite app_nil_r.
  - rewrite cf_loop_S. intros H. do 2 bind_inv H.
    destruct (Float64.isclose _ _).
    + injection H as <-. now exists [a].
    + bind_inv H. destruct (IH _ _ H) as [l' ->].
      exists (a :: l'). now rewrite <- app_assoc.
Qed.

Lemma cf_loop_length (n : nat) (rem : float) (acc l : list Z) :
  cf_loop n rem acc = Ok l -> (length l <= length acc + n)%nat.
Proof.
  rewrite cf_loop_traced_fst.
  destruct (cf_loop_traced n rem acc) as [[l0 b]|] eqn:H; [|discriminate].
  simpl. intros [= <-]. now apply cf_loop_traced_length in H.
Qed.

(** One turn less gives the same list without the coefficient of the last
    turn. *)
Lemma cf_loop_prefix (n : nat) (rem : float) (acc l : list Z) :
  cf_loop (S n) rem acc = Ok l ->
  cf_loop n rem acc = Ok (take (length acc + n) l).
Proof.
  revert rem acc l; induction n as [|n IH]; intros rem acc l H.
  - destruct (cf_loop_extends _ _ _ _ H) as [l' ->].
    simpl. now rewrite Nat.add_0_r, take_app_length.
  - rewrite cf_loop_S in H. rewrite (cf_loop_S n).
    destruct (Float64.floor rem) as [a|]; [|discriminate]. cbn [bind] in *.
    destruct (Float64.of_int a) as [fa|]; [|discriminate]. cbn [bind] in *.
    destruct (Float64.isclose _ _).
    + injection H as <-. f_equal. symmetry. apply take_ge.
      rewrite length_app. simpl. lia.
    + destruct (Float64.div _ _) as [rem'|]; [|discriminate].
      cbn [bind] in *.
      rewrite (IH _ _ _ H). rewrite length_app. simpl.
      do 2 f_equal. lia.
Qed.

Lemma cf_loop_prefix_le (k m : nat) (rem : float) (l : list Z) :
  cf_loop (m + k) rem [] = Ok l -> cf_loop m rem [] = Ok (take m l).
Proof.
  revert l; induction k as [|k IH]; intros l H.
  - rewrite Nat.add_0_r in H. rewrite H. f_equal. symmetry.
    apply take_ge. apply cf_loop_length in H. simpl in H. lia.
  - replace (m + S k)%nat with (S (m + k)) in H by lia.
    apply cf_loop_prefix in H. simpl in H.
    rewrite (IH _ H), take_take. do 2 f_equal. lia.
Qed.

Lemma get_continued_fraction_take (x : number) (m n : Z) (cf : list Z) :
  0 <= m <= n ->
  get_continued_fraction x n = Ok cf ->
  get_continued_fraction x m = Ok (take (Z.to_nat m) cf).
Proof.
  unfold get_continued_fraction. intros Hm.
  destruct (to_float x) as [rem|]; [|discriminate]. simpl.
  replace (Z.to_nat n) with (Z.to_nat m + (Z.to_nat n - Z.to_nat m))%nat
    by lia.
  apply cf_loop_prefix_le.
Qed.

(** X6.  The coefficients for a smaller term bound are a prefix of those
    for a larger one: if the call with [max_terms = n] returns, so does the
    call with any [m] from 0 to [n], with the first [m] coefficients. *)
Theorem smaller_bound_gives_prefix (x : number) (m n : Z) (cf : list Z) :
  0 <= m <= n ->
  get_continued_fraction x n = Ok cf ->
  get_continued_fraction x m = Ok (take (Z.to_nat m) cf).
Proof. apply get_continued_fraction_take. Qed.

Lemma smaller_bound_gives_prefix_witness :
  get_continued_fraction (PyFloat Float64.pi) 2
  = Ok (take (Z.to_nat 2) [3; 7; 15; 1; 292]).
Proof.
  apply (smaller_bound_gives_prefix (PyFloat Float64.pi) 2 5).
  - lia.
  - reflexivity.
Defined.

(** X7.  When the call returns, the list has at most [max_terms] elements; it
    is empty for [max_terms <= 0], and otherwise starts with the floor of
    the input. *)
Theorem get_continued_fraction_shape (x : number) (max_terms : Z)
  (cf : list Z) :
  get_continued_fraction x max_terms = Ok cf ->
  (length cf <= Z.to_nat max_terms)%nat /\
  (max_terms <= 0 -> cf = []) /\
  (1 <= max_terms ->
   exists a rest, cf = a :: rest /\ bind (to_float x) Float64.floor = Ok a).
Proof.
  intros H. split; [now apply (get_continued_fraction_length x)|].
  unfold get_continued_fraction in H.
  destruct (to_float x) as [rem|]; [|discriminate]. simpl in *.
  split.
  - intros Hn. replace (Z.to_nat max_terms) with 0%nat in H by lia.
    now injection H as <-.
  - intros Hn. destruct (Z.to_nat max_terms) as [|n] eqn:Hnat; [lia|].
    rewrite cf_loop_S in H. do 2 bind_inv H.
    destruct (Float64.isclose _ _).
    + injection H as <-. now exists a, [].
    + bind_inv H. destruct (cf_loop_extends _ _ _ _ H) as [l' ->].
      now exists a, l'.
Qed.

Lemma get_continued_fraction_shape_witness :
  (length [3; 7; 15] <= Z.to_nat 3)%nat /\
  (3 <= 0 -> [3; 7; 15] = []) /\
  (1 <= 3 ->
   exists a rest,
     [3; 7; 15] = a :: rest /\
     bind (to_float (PyFloat Float64.pi)) Float64.floor = Ok a).
Proof.
  apply (get_continued_fraction_shape (PyFloat Float64.pi) 3 [3; 7; 15]).
  reflexivity.
Defined.

Lemma cf_loop_raises (n : nat) (rem : float) (acc : list Z) (e : exn) :
  cf_loop n rem acc = Raised e -> e = OverflowError \/ e = ValueError.
Proof.
  revert rem acc; induction n as [|n IH]; intros rem acc; [discriminate|].
  rewrite cf_loop_S.
  destruct (Float64.floor rem) as [a|e0] eqn:Hfl; simpl.
  2:{ intros [= <-]. destruct rem; simpl in Hfl; try discriminate;
        injection Hfl as <-; auto. }
  destruct (Float64.of_int a) as [fa|e0] eqn:Hof; simpl.
  2:{ intros [= <-]. unfold Float64.of_int in Hof.
      destruct (binary_normalize _ _ _ _ _); try discriminate.
      injection Hof as <-. auto. }
  destruct (Float64.isclose _ _) eqn:Hclose; [discriminate|].
  destruct (Float64.sub rem fa) as [s| | |s m e0]; simpl;
    try apply IH.
  now rewrite isclose_zero in Hclose.
Qed.

Lemma cf_loop_raises_overflow (n : nat) (rem : float) (acc : list Z)
  (e : exn) :
  mantissa53 rem ->
  is_finite rem \/ at_least_one rem ->
  cf_loop n rem acc = Raised e -> e = OverflowError.
Proof.
  revert rem acc; induction n as [|n IH]; intros rem acc Hm Hrem;
    [discriminate|].
  rewrite cf_loop_S.
  destruct (Float64.floor rem) as [a|e0] eqn:Hfl; simpl.
  2:{ intros [= <-].
      destruct rem as [| | |[|] ? ?]; simpl in Hfl, Hrem; try discriminate;
        try (now injection Hfl as <-); tauto. }
  destruct (Float64.of_int a) as [fa|e0] eqn:Hof; simpl.
  2:{ intros [= <-]. unfold Float64.of_int in Hof.
      destruct (binary_normalize _ _ _ _ _); try discriminate.
      now injection Hof as <-. }
  destruct (Float64.isclose _ _) eqn:Hclose; [discriminate|].
  destruct (Float64.div _ _) as [rem'|e0] eqn:Hdiv; simpl.
  - destruct (next_remainder rem fa rem' a Hm Hfl Hof Hclose Hdiv)
      as [Hm' Hge']. apply IH; auto.
  - intros [= <-]. exfalso.
    destruct (Float64.sub rem fa) as [s| | |s m e1]; simpl in Hdiv;
      try discriminate Hdiv.
    now rewrite isclose_zero in Hclose.
Qed.

(** X8.  The exceptions of [get_continued_fraction]: the division
    [1.0 / fractional_part] never divides by zero, whatever the input; on a
    finite double the only exception is [OverflowError]. *)
Theorem get_continued_fraction_exceptions (x : number) (max_terms : Z)
  (e : exn) :
  get_continued_fraction x max_terms = Raised e ->
  (e = OverflowError \/ e = ValueError \/ e = TypeError) /\
  (forall f, x = PyFloat f -> mantissa53 f -> is_finite f ->
             e = OverflowError).
Proof.
  unfold get_continued_fraction. intros H. split.
  - destruct (to_float x) as [rem|e0] eqn:Hx; simpl in H.
    + apply cf_loop_raises in H. tauto.
    + injection H as <-. destruct x as [n|f|re im]; simpl in Hx.
      * unfold Float64.of_int in Hx.
        destruct (binary_normalize _ _ _ _ _); try discriminate.
        injection Hx as <-. auto.
      * discriminate.
      * injection Hx as <-. auto.
  - intros f -> Hm Hfin. simpl in H.
    apply (cf_loop_raises_overflow _ _ _ _ Hm) in H; auto.
Qed.

Lemma get_continued_fraction_exceptions_witness :
  (OverflowError = OverflowError \/ OverflowError = ValueError
   \/ OverflowError = TypeError) /\
  (forall f, PyFloat (S754_finite false 1 (-1074)) = PyFloat f ->
             mantissa53 f -> is_finite f -> OverflowError = OverflowError).
Proof.
  apply (get_continued_fraction_exceptions
           (PyFloat (S754_finite false 1 (-1074))) 2 OverflowError).
  vm_compute. reflexivity.
Defined.

(** X9.  The coefficients generated from a double are in normal form: every
    coefficient after the first is at least 1. *)
Theorem generated_coefficients_normal_form (x : number) (max_terms : Z)
  (cf : list Z) :
  binary64_number x ->
  get_continued_fraction x max_terms = Ok cf ->
  normal_form cf.
Proof. apply get_continued_fraction_normal_form. Qed.

Lemma generated_coefficients_normal_form_witness :
  normal_form [3; 7; 15; 1; 292].
Proof.
  apply (generated_coefficients_normal_form (PyFloat Float64.pi) 5).
  - reflexivity.
  - reflexivity.
Defined.

Lemma convergents_from_numerators_positive (st : RecurrenceState)
  (cf : list Z) :
  0 <= p_prev2 st -> 1 <= p_prev1 st ->
  Forall (fun a => 1 <= a) cf ->
  Forall (fun pq => 1 <= fst pq) (convergents_from st cf).
Proof.
  revert st; induction cf as [|a rest IH]; intros st H2 H1 Hcf; simpl.
  - constructor.
  - inversion Hcf as [|? ? Ha Hrest]; subst.
    constructor.
    + simpl. nia.
    + apply IH; simpl; [lia | nia | assumption].
Qed.

(** X10.  From a double that is at least 1 every coefficient is at least
    1, the first one too, and every pair built from the coefficients has a
    numerator and a denominator that are at least 1. *)
Theorem coefficients_of_value_above_one (f : float) (max_terms : Z)
  (cf : list Z) :
  mantissa53 f ->
  at_least_one f ->
  get_continued_fraction (PyFloat f) max_terms = Ok cf ->
  Forall (fun a => 1 <= a) cf /\
  Forall (fun pq => 1 <= fst pq /\ 1 <= snd pq) (get_convergents cf).
Proof.
  intros Hm Hge H. unfold get_continued_fraction in H. simpl in H.
  destruct (cf_loop_at_least_one _ _ _ _ Hm Hge H) as (l' & -> & Hall).
  simpl. split; [assumption|].
  apply Forall_and. split.
  - apply convergents_from_numerators_positive; simpl; (lia || assumption).
  - apply get_convergents_positive. unfold normal_form.
    destruct l' as [|a rest]; simpl; [constructor|].
    now inversion Hall.
Qed.

Lemma coefficients_of_value_above_one_witness :
  Forall (fun a => 1 <= a) [3; 7; 15] /\
  Forall (fun pq => 1 <= fst pq /\ 1 <= snd pq) (get_convergents [3; 7; 15]).
Proof.
  apply (coefficients_of_value_above_one Float64.pi 3).
  - reflexivity.
  - vm_compute. split; [reflexivity|discriminate].
  - reflexivity.
Defined.

Lemma get_continued_fraction_integral_witness :
  exists a,
    Float64.floor (S754_finite false 6755399441055744 (-51)) = Ok a /\
    get_continued_fraction
      (PyFloat (S754_finite false 6755399441055744 (-51))) 5 = Ok [a].
Proof.
  apply (get_continued_fraction_integral
           (S754_finite false 6755399441055744 (-51)) 5).
  - reflexivity.
  - right. reflexivity.
  - lia.
Defined.

Lemma floor_of_value (s : bool) (mf : positive) (ef M : Z) :
  0 <= M ->
  value_is (Zpos mf) ef M ->
  Float64.floor (S754_finite s mf ef) = Ok (cond_Zopp s M) /\
  integral (S754_finite s mf ef).
Proof.
  unfold value_is, Float64.floor, integral. intros HM Hv.
  destruct (0 <=? ef) eqn:He.
  - apply Z.leb_le in He. split; [|now left]. f_equal.
    destruct s; simpl; lia.
  - apply Z.leb_gt in He.
    assert (Hp : 0 < 2 ^ (- ef)) by (apply Z.pow_pos_nonneg; lia).
    split.
    + f_equal. rewrite Hv. destruct s; simpl.
      * rewrite <- Z.mul_opp_l. apply Z.div_mul. lia.
      * apply Z.div_mul. lia.
    + right. rewrite Hv. apply Z.mod_mul. lia.
Qed.

(** X18.  An integer input below [2^53] in absolute value comes back as
    the only coefficient: the conversion to a float and the floor are
    exact, and the loop leaves in its first turn. *)
Theorem integer_input_single_coefficient (n max_terms : Z) :
  Z.abs n < 2 ^ 53 ->
  1 <= max_terms ->
  get_continued_fraction (PyInt n) max_terms = Ok [n].
Proof.
  intros Hn Hmax. unfold get_continued_fraction. simpl.
  destruct (Z.to_nat max_terms) as [|t] eqn:Hnat; [lia|]. clear Hnat.
  destruct (Z.eq_dec n 0) as [->|Hn0]; [reflexivity|].
  assert (Hrep : exists m0 k,
             0 < m0 < 2 ^ 53 /\ 0 <= k <= 971 /\ Z.abs n = m0 * 2 ^ k).
  { exists (Z.abs n), 0. rewrite Z.pow_0_r. lia. }
  destruct (of_int_returns n Hrep) as [fa Hof].
  assert (Hrep' : exists m0 k,
             0 < m0 < 2 ^ 53 /\ 0 <= k /\ Z.abs n = m0 * 2 ^ k).
  { destruct Hrep as (m0 & k & ? & ? & ?). exists m0, k. lia. }
  destruct (of_int_value n fa Hrep' Hof) as (mf & ef & -> & Hv).
  pose proof (of_int_mantissa53 _ _ Hof) as Hm. simpl in Hm.
  destruct (floor_of_value (n <? 0) mf ef (Z.abs n) (Z.abs_nonneg n) Hv)
    as [Hfl Hint].
  assert (Hsign : cond_Zopp (n <? 0) (Z.abs n) = n).
  { destruct (n <? 0) eqn:Hs; simpl;
      [apply Z.ltb_lt in Hs|apply Z.ltb_ge in Hs]; lia. }
  rewrite Hsign in Hfl. rewrite Hof. cbn [bind cf_loop].
  rewrite Hfl. cbn [bind]. rewrite Hof. cbn [bind].
  rewrite (fractional_part_integral _ _ _ n _ Hm Hint Hfl Hof).
  reflexivity.
Qed.

Lemma integer_input_single_coefficient_witness :
  get_continued_fraction (PyInt (-7)) 15 = Ok [-7].
Proof.
  apply (integer_input_single_coefficient (-7) 15).
  - reflexivity.
  - lia.
Defined.

(** X19.  On a float input [ValueError] leaves the function for a NaN
    only, and then whenever the loop runs at all: no remainder computed
    later is a NaN. *)
Theorem value_error_only_for_nan (f : float) (max_terms : Z) :
  mantissa53 f ->
  get_continued_fraction (PyFloat f) max_terms = Raised ValueError <->
  f = S754_nan /\ 1 <= max_terms.
Proof.
  intros Hm. unfold get_continued_fraction. simpl. split.
  - intros H.
    destruct f as [s|s| |s m e].
    + apply cf_loop_raises_overflow in H; simpl; auto. discriminate.
    + apply cf_loop_raises_overflow in H; simpl; auto. discriminate.
    + split; [reflexivity|].
      destruct (Z.to_nat max_terms) eqn:Hnat; [discriminate|lia].
    + apply cf_loop_raises_overflow in H; simpl; auto. discriminate.
  - intros [-> Hmax].
    destruct (Z.to_nat max_terms) eqn:Hnat; [lia|reflexivity].
Qed.

Lemma value_error_only_for_nan_witness :
  get_continued_fraction (PyFloat S754_nan) 15 = Raised ValueError <->
  S754_nan = S754_nan /\ 1 <= 15.
Proof.
  apply (value_error_only_for_nan S754_nan 15). exact I.
Defined.

(** * Further properties of the Search Controller *)

Section ControllerMore.

Variable float_pow : float -> float -> result number.
Variable complex_abs : float -> float -> result float.

Lemma check_bound_zero_power (tolerance target : number) (T : Z)
  (r : attempt) :
  check_bound float_pow complex_abs 0 tolerance target T = Ok r ->
  r = Degenerate.
Proof.
  unfold check_bound, list_get_convergents, last_item. intros H.
  bind_inv H.
  destruct (last (get_convergents a)) as [[p q]|]; simpl in H;
    [|discriminate].
  destruct (q =? 0); [now injection H as <-|].
  bind_inv H. discriminate.
Qed.

Lemma search_zero_power (D : Z) (tolerance target : number) (fuel : nat)
  (T : Z) (d : gmap string pyval) :
  search float_pow complex_abs 0 D tolerance target fuel T <> Some (Ok d).
Proof.
  revert T; induction fuel as [|fuel IH]; intros T; simpl; [discriminate|].
  destruct (check_bound float_pow complex_abs 0 tolerance target T)
    as [r|e] eqn:Hc; [|discriminate].
  apply check_bound_zero_power in Hc. subst r. apply IH.
Qed.

(** X12.  For [k = 0] no dictionary is returned: the quotient [1 / k]
    raises at the first bound whose convergent is examined; on a runtime of
    binary64 floats the call raises within its first pass. *)
Theorem zero_power_raises (D : Z) :
  (forall fuel d,
      find_pi_approximation_to_d_digits float_pow complex_abs fuel 0 D
      <> Some (Ok d)) /\
  (returns_binary64 float_pow ->
   exists e, forall fuel, (1 <= fuel)%nat ->
     find_pi_approximation_to_d_digits float_pow complex_abs fuel 0 D
     = Some (Raised e)).
Proof.
  unfold find_pi_approximation_to_d_digits. split.
  - intros fuel d.
    destruct (int_pow float_pow 10 (- D)); [|discriminate].
    destruct (bind _ _); [|discriminate].
    apply search_zero_power.
  - intros Hpow.
    destruct (int_pow float_pow 10 (- D)) as [tolerance|e];
      [|now exists e].
    destruct (bind _ _) as [target|e] eqn:Htarget; [|now exists e].
    destruct (check_bound float_pow complex_abs 0 tolerance target 2)
      as [r|e] eqn:Hc.
    + exfalso. pose proof (check_bound_zero_power _ _ _ _ Hc). subst r.
      revert Hc. apply check_bound_not_degenerate.
      exact (target_binary64 float_pow 0 target Hpow Htarget).
    + exists e. intros [|fuel] Hfuel; [lia|]. simpl. now rewrite Hc.
Qed.

(** X13.  In a result with a convergent the fraction is in lowest terms
    with a denominator that is at least 1, on a runtime of binary64
    floats. *)
Theorem found_fraction_lowest_terms (fuel : nat) (k D : Z)
  (d : gmap string pyval) :
  returns_binary64 float_pow ->
  find_pi_approximation_to_d_digits float_pow complex_abs fuel k D
  = Some (Ok d) ->
  is_found d ->
  exists p q,
    d !! "convergent_p" = Some (Num (PyInt p)) /\
    d !! "convergent_q" = Some (Num (PyInt q)) /\
    1 <= q /\ Z.gcd p q = 1.
Proof.
  intros Hpow Hfind Hfound.
  destruct (find_returns _ _ _ _ _ _ Hfind)
    as (tolerance & target & _ & Htarget & Hsearch).
  destruct (search_returns _ _ _ _ _ _ _ _ _ Hsearch)
    as (T & _ & _ & [(p & q & pi_approx & error & Hc & -> & _)|[_ ->]]);
    [|now apply not_found_dict_not_found in Hfound].
  destruct (check_bound_checked _ _ _ _ _ _ _ _ _ _ _ Hc)
    as (cf & ratio & exponent & Hcf & Hlast & _).
  exists p, q. split; [reflexivity|]. split; [reflexivity|].
  apply last_Some_elem_of, list_elem_of_lookup in Hlast.
  destruct Hlast as [i Hi]. split.
  - pose proof (target_binary64 float_pow k target Hpow Htarget) as Hb.
    pose proof (get_continued_fraction_normal_form _ _ _ Hb Hcf) as Hnf.
    pose proof (get_convergents_positive cf Hnf) as Hpos.
    exact (Forall_lookup_1 _ _ _ _ Hpos Hi).
  - exact (convergent_lowest_terms cf i p q Hi).
Qed.

(** X14.  The convergent of a result is the first accurate one of its own
    expansion: every earlier convergent of the coefficient list of the
    accepted bound, but for the very first, which no bound examines, was
    examined at its own bound and was degenerate or not accurate enough. *)
Theorem found_is_first_accurate_convergent (fuel : nat) (k D : Z)
  (d : gmap string pyval) :
  find_pi_approximation_to_d_digits float_pow complex_abs fuel k D
  = Some (Ok d) ->
  is_found d ->
  exists tolerance target T cf p q exponent pi_approx error,
    int_pow float_pow 10 (- D) = Ok tolerance /\
    bind (Float64.of_int k) (float_pow Float64.pi) = Ok target /\
    get_continued_fraction target T = Ok cf /\
    last (get_convergents cf) = Some (p, q) /\
    Float64.int_true_div 1 k = Ok exponent /\
    d = found_dict k D p q pi_approx error /\
    forall (i : nat) (p' q' : Z),
      (1 <= i)%nat ->
      (S i < length cf)%nat ->
      get_convergents cf !! i = Some (p', q') ->
      q' = 0 \/
      exists ratio' pi_approx' error',
        Float64.int_true_div p' q' = Ok ratio' /\
        float_pow ratio' exponent = Ok pi_approx' /\
        abs_diff complex_abs pi_approx' Float64.pi = Ok error' /\
        lt_number error' tolerance = Ok false.
Proof.
  intros Hfind Hfound.
  destruct (find_returns _ _ _ _ _ _ Hfind)
    as (tolerance & target & Htol & Htarget & Hsearch).
  destruct (search_returns _ _ _ _ _ _ _ _ _ Hsearch)
    as (T & HT & Hbefore
        & [(p & q & pi_approx & error & Hc & -> & _)|[_ ->]]);
    [|now apply not_found_dict_not_found in Hfound].
  destruct (check_bound_checked _ _ _ _ _ _ _ _ _ _ _ Hc)
    as (cf & ratio & exponent & Hcf & Hlast & _ & _ & Hexp & _).
  exists tolerance, target, T, cf, p, q, exponent, pi_approx, error.
  repeat (split; [assumption || reflexivity|]).
  intros i p' q' Hi Hlen Hconv.
  pose proof (get_continued_fraction_length _ _ _ Hcf) as HlenT.
  assert (HT' : 2 <= Z.of_nat (S i) < T) by lia.
  assert (Hpre : get_continued_fraction target (Z.of_nat (S i))
                 = Ok (take (S i) cf)).
  { rewrite (get_continued_fraction_take target (Z.of_nat (S i)) T cf)
      by (assumption || lia).
    now rewrite Nat2Z.id. }
  pose proof (get_convergents_lookup_last cf i (p', q') Hconv) as Hlast'.
  destruct (Hbefore _ HT') as [Hd|(p2 & q2 & a2 & e2 & Hc2)].
  - destruct (check_bound_degenerate _ _ _ _ _ _ Hd) as (cf2 & p2 & G1 & G2).
    rewrite Hpre in G1. injection G1 as <-.
    rewrite Hlast' in G2. injection G2 as _ ->. now left.
  - destruct (check_bound_checked _ _ _ _ _ _ _ _ _ _ _ Hc2)
      as (cf2 & ratio2 & exponent2 & G1 & G2 & G3 & G4 & G5 & G6 & G7 & G8).
    rewrite Hpre in G1. injection G1 as <-.
    rewrite Hlast' in G2. injection G2 as -> ->.
    right. exists ratio2, a2, e2.
    assert (exponent2 = exponent) as -> by congruence. auto.
Qed.

(** The rows of the demonstration, when no denominator is zero: one row
    for each pair, in order. *)
Lemma demo_rows_no_skip (convergents : list (Z * Z))
  (rows : list (Z * Z * number * float)) :
  Forall (fun pq => 1 <= snd pq) convergents ->
  demo_rows float_pow complex_abs convergents = Ok rows ->
  map (fun row => (fst (fst (fst row)), snd (fst (fst row)))) rows
  = convergents.
Proof.
  revert rows; induction convergents as [|[p q] rest IH]; intros rows Hall;
    cbn [demo_rows].
  - now intros [= <-].
  - inversion Hall as [|? ? Hq Hrest]; subst. simpl in Hq.
    replace (q =? 0) with false by (symmetry; apply Z.eqb_neq; lia).
    intros H.
    destruct (Float64.int_true_div p q) as [ratio|]; [|discriminate].
    cbn [bind] in H.
    destruct (Float64.int_true_div 1 K_DEMO) as [exponent|]; [|discriminate].
    cbn [bind] in H.
    destruct (float_pow ratio exponent) as [pi_approx|]; [|discriminate].
    cbn [bind] in H.
    destruct (abs_diff complex_abs pi_approx Float64.pi) as [error|];
      [|discriminate].
    cbn [bind] in H.
    destruct (demo_rows float_pow complex_abs rest) as [rows0|] eqn:Hrows;
      [|discriminate].
    cbn [bind] in H. injection H as <-. cbn [map fst snd].
    f_equal. now apply IH.
Qed.

(** X15.  The table of the script has one row for each coefficient, at
    most ten, in the order of the convergents: on a runtime of binary64
    floats the test [if q == 0: continue] skips nothing. *)
Theorem demo_table_rows (cf : list Z)
  (rows : list (Z * Z * number * float)) :
  returns_binary64 float_pow ->
  demo_table float_pow complex_abs = Ok (cf, rows) ->
  (length rows = length cf /\ length cf <= 10)%nat /\
  map (fun row => (fst (fst (fst row)), snd (fst (fst row)))) rows
  = get_convergents cf.
Proof.
  intros Hpow H. unfold demo_table in H.
  destruct (bind (Float64.of_int K_DEMO) (float_pow Float64.pi))
    as [pi_to_k|] eqn:Htarget; [|discriminate]. cbn [bind] in H.
  destruct (get_continued_fraction pi_to_k 10) as [cf0|] eqn:Hcf;
    [|discriminate]. cbn [bind] in H.
  destruct (demo_rows float_pow complex_abs (get_convergents cf0))
    as [rows0|] eqn:Hrows; [|discriminate]. cbn [bind] in H.
  injection H as -> ->.
  pose proof (target_binary64 float_pow K_DEMO pi_to_k Hpow Htarget) as Hb.
  pose proof (get_continued_fraction_normal_form _ _ _ Hb Hcf) as Hnf.
  pose proof (get_convergents_positive cf Hnf) as Hpos.
  pose proof (demo_rows_no_skip _ _ Hpos Hrows) as Hmap.
  split; [|exact Hmap]. split.
  - apply (f_equal length) in Hmap. rewrite length_map in Hmap.
    rewrite Hmap. apply convergents_from_length.
  - apply get_continued_fraction_length in Hcf. simpl in Hcf. lia.
Qed.

Lemma ltb_fabs_zero (x : float) (s : bool) :
  Float64.ltb (Float64.fabs x) (S754_zero s) = false.
Proof. now destruct x. Qed.

Lemma check_bound_zero_tolerance (k : Z) (s : bool) (target : number)
  (T p q : Z) (pi_approx : number) (error : float) (accurate : bool) :
  (forall re im r, complex_abs re im = Ok r ->
                   Float64.ltb r Float64.zero = false) ->
  check_bound float_pow complex_abs k (PyFloat (S754_zero s)) target T
  = Ok (Checked p q pi_approx error accurate) ->
  accurate = false.
Proof.
  intros Habs Hc.
  destruct (check_bound_checked _ _ _ _ _ _ _ _ _ _ _ Hc)
    as (cf & ratio & exponent & _ & _ & _ & _ & _ & _ & Herr & Hlt).
  simpl in Hlt. injection Hlt as <-.
  destruct pi_approx as [n|x|re im]; simpl in Herr.
  - destruct (Float64.of_int n); [|discriminate]. simpl in Herr.
    injection Herr as <-. apply ltb_fabs_zero.
  - injection Herr as <-. apply ltb_fabs_zero.
  - apply Habs in Herr. now destruct error, s.
Qed.

Lemma search_zero_tolerance (k D : Z) (s : bool) (target : number)
  (fuel : nat) (T : Z) (d : gmap string pyval) :
  (forall re im r, complex_abs re im = Ok r ->
                   Float64.ltb r Float64.zero = false) ->
  search float_pow complex_abs k D (PyFloat (S754_zero s)) target fuel T
  = Some (Ok d) ->
  d = not_found_dict.
Proof.
  intros Habs. revert T; induction fuel as [|fuel IH]; intros T; simpl;
    [discriminate|].
  destruct (check_bound float_pow complex_abs k (PyFloat (S754_zero s))
              target T) as [[|p q pi_approx error accurate]|e] eqn:Hc;
    [apply IH| |discriminate].
  rewrite (check_bound_zero_tolerance _ _ _ _ _ _ _ _ _ Habs Hc).
  destruct (50 <? T + 1); [now intros [= <-]|apply IH].
Qed.

(** X16.  When the tolerance [10 ** (-D)] underflows to zero ([D = 324]
    does it), no convergent is accepted, because the test is the strict
    [error < tolerance]: the call never returns a result with a
    convergent. *)
Theorem zero_tolerance_never_found (fuel : nat) (k D : Z) (s : bool)
  (d : gmap string pyval) :
  (forall re im r, complex_abs re im = Ok r ->
                   Float64.ltb r Float64.zero = false) ->
  int_pow float_pow 10 (- D) = Ok (PyFloat (S754_zero s)) ->
  is_found d ->
  find_pi_approximation_to_d_digits float_pow complex_abs fuel k D
  <> Some (Ok d).
Proof.
  intros Habs Htol Hfound Hfind.
  unfold find_pi_approximation_to_d_digits in Hfind. rewrite Htol in Hfind.
  destruct (bind _ _) as [target|]; [|discriminate].
  apply (search_zero_tolerance _ _ _ _ _ _ _ Habs) in Hfind. subst d.
  now apply not_found_dict_not_found in Hfound.
Qed.

End ControllerMore.

Lemma zero_power_raises_witness :
  (forall fuel d,
      find_pi_approximation_to_d_digits pow_integral complex_abs_real
        fuel 0 8 <> Some (Ok d)) /\
  exists e, forall fuel, (1 <= fuel)%nat ->
    find_pi_approximation_to_d_digits pow_integral complex_abs_real fuel 0 8
    = Some (Raised e).
Proof.
  destruct (zero_power_raises pow_integral complex_abs_real 8) as [H1 H2].
  split; [exact H1|]. apply H2. exact pow_integral_binary64.
Defined.

Lemma found_fraction_lowest_terms_witness :
  let d := found_dict 1 1 22 7
             (PyFloat (S754_finite false 7077085128725065 (-51)))
             (S754_finite false 5831427474688000 (-62)) in
  exists p q,
    d !! "convergent_p" = Some (Num (PyInt p)) /\
    d !! "convergent_q" = Some (Num (PyInt q)) /\
    1 <= q /\ Z.gcd p q = 1.
Proof.
  apply (found_fraction_lowest_terms pow_integral complex_abs_real 49 1 1).
  - exact pow_integral_binary64.
  - vm_compute. reflexivity.
  - apply found_dict_is_found.
Defined.

(** The run for [k = 1], [D = 3]: 22/7 is rejected at the bound 2 and
    333/106 is accepted at the bound 3. *)
Lemma found_is_first_accurate_convergent_witness :
  exists tolerance target T cf p q exponent pi_approx error,
    int_pow pow_integral 10 (- 3) = Ok tolerance /\
    bind (Float64.of_int 1) (pow_integral Float64.pi) = Ok target /\
    get_continued_fraction target T = Ok cf /\
    last (get_convergents cf) = Some (p, q) /\
    Float64.int_true_div 1 1 = Ok exponent /\
    found_dict 1 3 333 106
      (PyFloat (S754_finite false 7074050358086675 (-51)))
      (S754_finite false 6140524683755520 (-66))
    = found_dict 1 3 p q pi_approx error /\
    forall (i : nat) (p' q' : Z),
      (1 <= i)%nat ->
      (S i < length cf)%nat ->
      get_convergents cf !! i = Some (p', q') ->
      q' = 0 \/
      exists ratio' pi_approx' error',
        Float64.int_true_div p' q' = Ok ratio' /\
        pow_integral ratio' exponent = Ok pi_approx' /\
        abs_diff complex_abs_real pi_approx' Float64.pi = Ok error' /\
        lt_number error' tolerance = Ok false.
Proof.
  apply (found_is_first_accurate_convergent
           pow_integral complex_abs_real 49 1 3).
  - vm_compute. reflexivity.
  - apply found_dict_is_found.
Defined.

Lemma demo_table_rows_witness :
  exists cf rows,
    demo_table pow_integral complex_abs_real = Ok (cf, rows) /\
    (length rows = length cf /\ length cf <= 10)%nat /\
    map (fun row => (fst (fst (fst row)), snd (fst (fst row)))) rows
    = get_convergents cf.
Proof.
  eexists _, _. split.
  - vm_compute. reflexivity.
  - apply (demo_table_rows pow_integral complex_abs_real).
    + exact pow_integral_binary64.
    + vm_compute. reflexivity.
Defined.

Lemma complex_abs_real_nonnegative (re im r : float) :
  complex_abs_real re im = Ok r -> Float64.ltb r Float64.zero = false.
Proof.
  unfold complex_abs_real.
  destruct im; intros [= <-]; try reflexivity. apply ltb_fabs_zero.
Qed.

Lemma zero_tolerance_never_found_witness :
  find_pi_approximation_to_d_digits pow_integral complex_abs_real 49 1 324
  <> Some (Ok (found_dict 1 324 22 7
                 (PyFloat (S754_finite false 7077085128725065 (-51)))
                 (S754_finite false 5831427474688000 (-62)))).
Proof.
  apply (zero_tolerance_never_found pow_integral complex_abs_real
           49 1 324 false).
  - exact complex_abs_real_nonnegative.
  - vm_compute. reflexivity.
  - apply found_dict_is_found.
Defined.

(** * The search under a weaker tolerance *)

Lemma ltb_leb_trans (e t t' : float) :
  Float64.ltb e t = true -> Float64.leb t t' = true ->
  Float64.ltb e t' = true.
Proof.
  unfold Float64.ltb, Float64.leb, SFltb, SFleb.
  destruct e as [s1|s1| |s1 m1 e1], t as [s2|s2| |s2 m2 e2],
    t' as [s3|s3| |s3 m3 e3]; simpl;
    try destruct s1; try destruct s2; try destruct s3; simpl;
    try discriminate; try reflexivity;
    destruct (e1 ?= e2) eqn:H12; try discriminate;
    destruct (e2 ?= e3) eqn:H23; try discriminate;
    destruct (e1 ?= e3) eqn:H13; try reflexivity;
    rewrite ?Z.compare_eq_iff, ?Z.compare_lt_iff, ?Z.compare_gt_iff in *;
    try lia;
    rewrite ?Pos.compare_cont_spec; simpl;
    destruct (m1 ?= m2)%positive eqn:M12; try discriminate;
    destruct (m2 ?= m3)%positive eqn:M23; try discriminate;
    destruct (m1 ?= m3)%positive eqn:M13; try reflexivity;
    rewrite ?Pos.compare_eq_iff, ?Pos.compare_lt_iff, ?Pos.compare_gt_iff
      in *;
    try lia; simpl; try discriminate.
Qed.

Section ControllerTolerance.

Variable float_pow : float -> float -> result number.
Variable complex_abs : float -> float -> result float.

(** The tolerance enters a pass only at its last step, the comparison. *)
Lemma check_bound_tolerance (k : Z) (t t' : float) (target : number)
  (T : Z) :
  check_bound float_pow complex_abs k (PyFloat t') target T
  = match check_bound float_pow complex_abs k (PyFloat t) target T with
    | Ok (Checked p q pi_approx error _) =>
        Ok (Checked p q pi_approx error (Float64.ltb error t'))
    | r => r
    end.
Proof.
  unfold check_bound.
  destruct (get_continued_fraction target T) as [cf|]; [|reflexivity].
  cbn [bind].
  destruct (list_get_convergents cf) as [cs|]; [|reflexivity]. cbn [bind].
  destruct (last_item cs) as [[p q]|]; [|reflexivity]. cbn [bind].
  destruct (q =? 0); [reflexivity|].
  destruct (Float64.int_true_div p q) as [ratio|]; [|reflexivity].
  cbn [bind].
  destruct (Float64.int_true_div 1 k) as [exponent|]; [|reflexivity].
  cbn [bind].
  destruct (float_pow ratio exponent) as [pi_approx|]; [|reflexivity].
  cbn [bind].
  destruct (abs_diff complex_abs pi_approx Float64.pi) as [error|];
    reflexivity.
Qed.

Lemma search_weaker_tolerance (k D D' : Z) (t t' : float) (target : number)
  (fuel : nat) (T : Z) (d : gmap string pyval) :
  Float64.leb t t' = true ->
  search float_pow complex_abs k D (PyFloat t) target fuel T = Some (Ok d) ->
  is_found d ->
  exists p q pi_approx error,
    search float_pow complex_abs k D' (PyFloat t') target fuel T
    = Some (Ok (found_dict k D' p q pi_approx error)).
Proof.
  intros Hle. revert T; induction fuel as [|fuel IH]; intros T; simpl;
    [discriminate|].
  rewrite (check_bound_tolerance k t t').
  destruct (check_bound float_pow complex_abs k (PyFloat t) target T)
    as [[|p q pi_approx error accurate]|e] eqn:Hc;
    [apply IH| |discriminate].
  destruct (check_bound_checked _ _ _ _ _ _ _ _ _ _ _ Hc)
    as (_ & _ & _ & _ & _ & _ & _ & _ & _ & _ & Hlt).
  simpl in Hlt. injection Hlt as <-.
  destruct (Float64.ltb error t) eqn:Hacc.
  - intros _ _. rewrite (ltb_leb_trans _ _ _ Hacc Hle). eauto.
  - destruct (Float64.ltb error t'); [eauto|].
    destruct (50 <? T + 1); [|apply IH].
    intros [= <-] Hfound. now apply not_found_dict_not_found in Hfound.
Qed.

(** X20.  Asking for less never loses the answer: when the call for [D]
    returns a convergent and the tolerance of [D'] is a float at least as
    large as that of [D], the call for [D'] returns a convergent too,
    with the same fuel, so after no more passes. *)
Theorem fewer_digits_still_found (fuel : nat) (k D D' : Z) (t t' : float)
  (d : gmap string pyval) :
  int_pow float_pow 10 (- D) = Ok (PyFloat t) ->
  int_pow float_pow 10 (- D') = Ok (PyFloat t') ->
  Float64.leb t t' = true ->
  find_pi_approximation_to_d_digits float_pow complex_abs fuel k D
  = Some (Ok d) ->
  is_found d ->
  exists p q pi_approx error,
    find_pi_approximation_to_d_digits float_pow complex_abs fuel k D'
    = Some (Ok (found_dict k D' p q pi_approx error)).
Proof.
  unfold find_pi_approximation_to_d_digits. intros -> -> Hle.
  destruct (bind _ _) as [target|]; [|discriminate].
  now apply search_weaker_tolerance.
Qed.

End ControllerTolerance.

(** The run for [k = 1]: 333/106 is found for [D = 3], so a convergent is
    found for [D = 1]. *)
Lemma fewer_digits_still_found_witness :
  exists p q pi_approx error,
    find_pi_approximation_to_d_digits pow_integral complex_abs_real 49 1 1
    = Some (Ok (found_dict 1 1 p q pi_approx error)).
Proof.
  apply (fewer_digits_still_found pow_integral complex_abs_real 49 1 3 1
           (S754_finite false 4611686018427388 (-62))
           (S754_finite false 7205759403792794 (-56))
           (found_dict 1 3 333 106
              (PyFloat (S754_finite false 7074050358086675 (-51)))
              (S754_finite false 6140524683755520 (-66)))).
  - vm_compute. reflexivity.
  - vm_compute. reflexivity.
  - reflexivity.
  - vm_compute. reflexivity.
  - apply found_dict_is_found.
Defined.
